(** * Tab_Transposer: a shallow embedding of [main.cpp]

    The chord grammar ([validNote], [getRoot], [validChord],
    [validSlashChord], [validChordQuality]), the transposition engine
    ([Key], [getInterval], [transposeNote], [transposeChord]) and the line
    driver ([isChordLine], [transposeTab]) are transcribed function by
    function from the C++ source.

    Conventions of the embedding.
    - A [std::string] is a [string]; a [vector<string>] is a [list string].
    - [int] and [size_t] values that hold string positions live in [Z].
      A negative number stands for the [size_t] it wraps to, which is larger
      than every string size; in particular [string::npos] is [-1].  Strings
      are taken to be shorter than 2^31 characters, so that an [int] holds
      every position exactly.
    - The interval of [transposeNote] is a parameter of type [int] that the
      caller chooses, and the function adds it to a table index: that sum is
      written with the wrap-around of the 32-bit two's-complement addition
      of the compiled program, [to_int].  (The C++ standard leaves signed
      overflow undefined.)
    - The members that throw [std::out_of_range] ([substr], [replace],
      [vector::at]) return in the [result] monad.  Loops and the mutual
      recursion of [validChord] and [validSlashChord] run on a step budget;
      running out of it is the separate error [step_limit].
    - A [stringstream] is its unread characters and its [eofbit] and
      [failbit]. *)

From Stdlib Require Import String Ascii List ZArith Lia Bool Arith.
From Stdlib Require Import Sorted OrderedTypeEx.
Import ListNotations.

Local Open Scope string_scope.
Local Open Scope Z_scope.

(** ** Errors *)

Inductive exn : Type :=
| out_of_range
| step_limit.

Inductive result (A : Type) : Type :=
| Ret (a : A)
| Raise (e : exn).

Arguments Ret {A} a.
Arguments Raise {A} e.

Definition bind {A B : Type} (m : result A) (k : A -> result B) : result B :=
  match m with
  | Ret a => k a
  | Raise e => Raise e
  end.

Notation "x <- m ;; k" := (bind m (fun x => k))
  (at level 61, m at next level, right associativity).

(** ** [<cctype>] in the "C" locale *)

Definition isspace (c : ascii) : bool :=
  let n := nat_of_ascii c in
  Nat.eqb n 32 || (Nat.leb 9 n && Nat.leb n 13).

Definition tolower (c : ascii) : ascii :=
  let n := nat_of_ascii c in
  if Nat.leb 65 n && Nat.leb n 90 then ascii_of_nat (n + 32) else c.

Definition toupper (c : ascii) : ascii :=
  let n := nat_of_ascii c in
  if Nat.leb 97 n && Nat.leb n 122 then ascii_of_nat (n - 32) else c.

(** ** [std::string] *)

Definition npos : Z := -1.

Definition size (s : string) : Z := Z.of_nat (String.length s).

Fixpoint drop (n : nat) (s : string) : string :=
  match n, s with
  | O, _ => s
  | S _, EmptyString => EmptyString
  | S n', String _ s' => drop n' s'
  end.

Fixpoint take (n : nat) (s : string) : string :=
  match n, s with
  | O, _ => EmptyString
  | S _, EmptyString => EmptyString
  | S n', String c s' => String c (take n' s')
  end.

(** [s.substr(pos, count)]: throws when [pos > size()], clamps [count]. *)
Definition substr (s : string) (pos count : Z) : result string :=
  if (pos <? 0) || (size s <? pos) then Raise out_of_range
  else
    let tl := drop (Z.to_nat pos) s in
    Ret (if count <? 0 then tl else take (Z.to_nat count) tl).

(** First occurrence of [pat] in [s], counted from the start of [s]. *)
Fixpoint find_first (pat s : string) : option nat :=
  if prefix pat s then Some O
  else
    match s with
    | EmptyString => None
    | String _ s' => option_map S (find_first pat s')
    end.

(** [s.find(pat, pos)]. *)
Definition find (s pat : string) (pos : Z) : Z :=
  if (pos <? 0) || (size s <? pos) then npos
  else
    match find_first pat (drop (Z.to_nat pos) s) with
    | Some i => pos + Z.of_nat i
    | None => npos
    end.

(** [s.find_first_of(set)] and [s.find_last_of(set)]. *)
Fixpoint mem_char (c : ascii) (set : string) : bool :=
  match set with
  | EmptyString => false
  | String d set' => Ascii.eqb c d || mem_char c set'
  end.

Fixpoint find_first_of_from (s set : string) (i : Z) : Z :=
  match s with
  | EmptyString => npos
  | String c s' =>
      if mem_char c set then i else find_first_of_from s' set (i + 1)
  end.

Definition find_first_of (s set : string) : Z := find_first_of_from s set 0.

Fixpoint find_last_of_from (s set : string) (i : Z) (last : Z) : Z :=
  match s with
  | EmptyString => last
  | String c s' =>
      find_last_of_from s' set (i + 1) (if mem_char c set then i else last)
  end.

Definition find_last_of (s set : string) : Z := find_last_of_from s set 0 npos.

(** [s.replace(pos, len, str)]: throws when [pos > size()]. *)
Definition replace (s : string) (pos len : Z) (str : string) : result string :=
  if (pos <? 0) || (size s <? pos) then Raise out_of_range
  else
    let p := Z.to_nat pos in
    let after := if len <? 0 then EmptyString
                 else drop (Z.to_nat len) (drop p s) in
    Ret (take p s ++ str ++ after).

Fixpoint transform (f : ascii -> ascii) (s : string) : string :=
  match s with
  | EmptyString => EmptyString
  | String c s' => String (f c) (transform f s')
  end.

(** [transform(s.begin(), ++s.begin(), s.begin(), f)]: the first character
    only. *)
Definition transform_first (f : ascii -> ascii) (s : string) : string :=
  match s with
  | EmptyString => EmptyString
  | String c s' => String (f c) s'
  end.

(** [v.at(i)]. *)
Definition at_ (v : list string) (i : Z) : result string :=
  if i <? 0 then Raise out_of_range
  else
    match nth_error v (Z.to_nat i) with
    | Some x => Ret x
    | None => Raise out_of_range
    end.

(** ** [std::stringstream], as far as the program reads from it *)

Record istream : Type := mkStream
  { unread : string; eofbit : bool; failbit : bool }.

Definition stringstream (s : string) : istream :=
  {| unread := s; eofbit := false; failbit := false |}.

Definition good (st : istream) : bool := negb (eofbit st) && negb (failbit st).

Fixpoint skipws (s : string) : string :=
  match s with
  | EmptyString => EmptyString
  | String c s' => if isspace c then skipws s' else s
  end.

(** The characters up to the next white space, and what follows them. *)
Fixpoint read_word (s : string) : string * string :=
  match s with
  | EmptyString => (EmptyString, EmptyString)
  | String c s' =>
      if isspace c then (EmptyString, s)
      else let (w, r) := read_word s' in (String c w, r)
  end.

(** [st >> word].  When the stream is not good, or holds white space only,
    the extraction fails and [word] keeps the value it had: the string is
    erased only after the sentry has succeeded. *)
Definition extract (st : istream) (word : string) : istream * string :=
  if good st then
    match skipws (unread st) with
    | EmptyString =>
        ({| unread := EmptyString; eofbit := true; failbit := true |}, word)
    | String c s' =>
        let (w, r) := read_word (String c s') in
        ({| unread := r;
            eofbit := match r with EmptyString => true | _ => false end;
            failbit := false |}, w)
    end
  else
    ({| unread := unread st; eofbit := eofbit st; failbit := true |}, word).

Definition newline : ascii := ascii_of_nat 10.
Definition endl : string := String newline EmptyString.

(** The characters up to the next newline, what follows the newline, and
    whether a newline was met. *)
Fixpoint read_line (s : string) : string * string * bool :=
  match s with
  | EmptyString => (EmptyString, EmptyString, false)
  | String c s' =>
      if Ascii.eqb c newline then (EmptyString, s', true)
      else let '(l, r, nl) := read_line s' in (String c l, r, nl)
  end.

(** [getline(st, line)]. *)
Definition getline (st : istream) (line : string) : istream * string :=
  if good st then
    match unread st with
    | EmptyString =>
        ({| unread := EmptyString; eofbit := true; failbit := true |},
         EmptyString)
    | String c s' =>
        let '(l, r, nl) := read_line (String c s') in
        ({| unread := r; eofbit := negb nl; failbit := false |}, l)
    end
  else
    ({| unread := unread st; eofbit := eofbit st; failbit := true |}, line).

(** ** Note catalog *)

Definition notes : list string :=
  ["ab"; "a"; "bb"; "b"; "c"; "db"; "d"; "eb"; "e"; "f"; "f#"; "g"].

Definition altNotes : list string :=
  ["g#"; "a"; "a#"; "b"; "b#"; "c#"; "d"; "d#"; "e"; "e#"; "gb"; "g"].

(** The vector [chords] as it is initialised. *)
Definition chords_init : list string :=
  ["#5#9"; "#5b9"; "11"; "13"; "13#11";
   "13sus"; "13sus2"; "13sus4"; "2"; "5"; "6";
   "6/9"; "7"; "7#11"; "7#5"; "7#9"; "7b5";
   "7b5#9"; "7b5(#9)"; "7b9"; "7sus"; "7sus2";
   "7sus4"; "9"; "9sus"; "9sus2"; "9sus4"; "m";
   "add9"; "aug"; "aug7#9"; "aug9"; "b5"; "b5#9";
   "b5b9"; "dim"; "dim7"; "m"; "m(add9)";
   "m(maj7)"; "m11"; "m13"; "m6"; "m6/9"; "m7";
   "m7b5"; "m7b9"; "m9"; "m9(maj7)"; "m9m7";
   "m9b5"; "m9maj7"; "mm7"; "madd9"; "maj";
   "maj13"; "maj7"; "maj7#11"; "maj9"; "major";
   "mb6"; "min"; "minor"; "mmaj7"; "sus";
   "sus2"; "sus4"].

(** [std::sort] with [operator<] of [std::string]. *)
Fixpoint insert_sorted (x : string) (l : list string) : list string :=
  match l with
  | [] => [x]
  | y :: l' => if String.ltb y x then y :: insert_sorted x l' else x :: l
  end.

Definition sort (l : list string) : list string :=
  fold_right insert_sorted [] l.

(** [main] sorts [chords] before anything else runs; this is the vector
    every call of [validChordQuality] sees. *)
Definition chords : list string := Eval vm_compute in sort chords_init.

Definition isAltNote (note : string) : bool :=
  String.eqb note "g#" || String.eqb note "a#" ||
  String.eqb note "c#" || String.eqb note "d#" ||
  String.eqb note "gb".

Definition formatNote (input : string) : string :=
  let stream := stringstream input in
  let extractedNote := EmptyString in
  let (_, extractedNote) := extract stream extractedNote in
  transform tolower extractedNote.

Definition validNote (note : string) : bool :=
  let stream := stringstream note in
  let extractedNote := EmptyString in
  let (_, extractedNote) := extract stream extractedNote in
  let extractedNote := transform tolower extractedNote in
  if existsb (String.eqb extractedNote) notes then true
  else if existsb (String.eqb extractedNote) altNotes then true
  else false.

(** The loop of [getNoteIndex]: [i] is the loop variable, [k] the number of
    iterations left, [chromatic.size() - i]. *)
Fixpoint getNoteIndex_loop (chromatic : list string) (note : string)
    (i : Z) (k : nat) : result Z :=
  match k with
  | O => Ret 0
  | S k' =>
      x <- at_ chromatic i ;;
      if String.eqb x note then Ret i
      else getNoteIndex_loop chromatic note (i + 1) k'
  end.

Definition getNoteIndex (chromatic : list string) (note : string) : result Z :=
  let note := formatNote note in
  getNoteIndex_loop chromatic note 0 (List.length chromatic).

(** ** Key *)

Record Key : Type := mkKey { keyName : string; id : Z; alt : bool }.

(** [Key::Key()]. *)
Definition Key_default : Key := {| keyName := ""; id := 0; alt := false |}.

(** [Key::Key(string keyName)]. *)
Definition Key_of (keyName : string) : result Key :=
  if isAltNote keyName then
    i <- getNoteIndex altNotes keyName ;;
    Ret {| keyName := keyName; id := i; alt := true |}
  else
    i <- getNoteIndex notes keyName ;;
    Ret {| keyName := keyName; id := i; alt := false |}.

Definition keyIndex (k : Key) : Z := id k.
Definition usesAltNotes (k : Key) : bool := alt k.
Definition getKeyName (k : Key) : string := keyName k.

(** ** Transposition engine and root extraction *)

Definition getInterval (old newKey : Key) : Z :=
  let interval := keyIndex newKey - keyIndex old in
  if interval <? 0 then 12 + interval else interval.

Definition shFl5 : list string := ["b5#9"; "b5b9"; "#5b9"; "#5#9"].

(** [isFlatSharpFive(word, flat5Ind)]: the result and the new value of the
    reference parameter [flat5Ind]. *)
Fixpoint isFlatSharpFive_loop (l : list string) (word : string)
    (flat5Ind : Z) : bool * Z :=
  match l with
  | [] => (false, flat5Ind)
  | chord :: l' =>
      if negb (find word chord 0 =? npos) then (true, find word chord 0)
      else isFlatSharpFive_loop l' word flat5Ind
  end.

Definition isFlatSharpFive (word : string) (flat5Ind : Z) : bool * Z :=
  isFlatSharpFive_loop shFl5 word flat5Ind.

Definition getRoot (word : string) : result string :=
  let flat5Ind := -1 in
  let (found, flat5Ind) := isFlatSharpFive word flat5Ind in
  if found then
    if flat5Ind =? 2 then substr word 0 2 else substr word 0 1
  else if (find word "b" 0 =? 1) || (find word "#" 0 =? 1) then
    substr word 0 2
  else substr word 0 1.

(** [int] is 32 bits wide.  [to_int x] is the [int] that holds the result
    of an [int] operation whose exact result is [x]: [x] itself when it
    fits, and the value it wraps around to when it does not. *)
Definition INT_MAX : Z := 2147483647.
Definition INT_MIN : Z := -2147483648.
Definition to_int (x : Z) : Z := (x - INT_MIN) mod 4294967296 + INT_MIN.

(** [%] is [Z.rem]: the remainder has the sign of the dividend, and a
    negative one makes [at] throw. *)
Definition transposeNote (old : string) (interval : Z) (alt : bool)
  : result string :=
  if isAltNote old then
    if alt then
      i <- getNoteIndex altNotes old ;;
      at_ altNotes (Z.rem (to_int (i + interval)) 12)
    else
      i <- getNoteIndex altNotes old ;;
      at_ notes (Z.rem (to_int (i + interval)) 12)
  else
    if alt then
      i <- getNoteIndex notes old ;;
      at_ altNotes (Z.rem (to_int (i + interval)) 12)
    else
      i <- getNoteIndex notes old ;;
      at_ notes (Z.rem (to_int (i + interval)) 12).

(** ** Chord grammar *)

(** [*it] for an iterator [v.begin() + i]. *)
Definition deref (v : list string) (i : nat) : result string :=
  match nth_error v i with
  | Some x => Ret x
  | None => Raise out_of_range
  end.

(** [std::lower_bound] on [v.begin() + first, v.begin() + first + len). *)
Fixpoint lower_bound (fuel : nat) (v : list string) (val : string)
    (first len : nat) : result nat :=
  if Nat.eqb len 0 then Ret first
  else
    match fuel with
    | O => Raise step_limit
    | S fuel' =>
        let half := Nat.div2 len in
        let middle := (first + half)%nat in
        x <- deref v middle ;;
        if String.ltb x val then
          lower_bound fuel' v val (S middle) (len - half - 1)
        else lower_bound fuel' v val first half
    end.

(** [std::binary_search(v.begin(), v.end(), val)]. *)
Definition binary_search (v : list string) (val : string) : result bool :=
  let last := List.length v in
  i <- lower_bound last v val O last ;;
  if Nat.eqb i last then Ret false
  else x <- deref v i ;; Ret (negb (String.ltb val x)).

Definition validChordQuality (qual : string) : result bool :=
  let qual := formatNote qual in
  binary_search chords qual.

(** [validSlashChord], with the call of [validChord] it makes as a
    parameter. *)
Definition validSlashChord_with (validChord : string -> result bool)
    (word : string) : result bool :=
  if find word "/" 0 =? npos then Ret false
  else if negb (find_first_of word "/" =? find_last_of word "/") then Ret false
  else
    let slashInd := find word "/" 0 in
    if slashInd =? size word - 1 then Ret false
    else
      preSl <- substr word 0 slashInd ;;
      postSl <- substr word (slashInd + 1) npos ;;
      vc <- validChord preSl ;;
      if vc && validNote postSl then Ret true else Ret false.

(** [validChord], with the call of [validSlashChord] it makes as a
    parameter. *)
Definition validChord_with (validSlashChord : string -> result bool)
    (word : string) : result bool :=
  if size word =? 1 then
    if validNote word then Ret true else Ret false
  else
    vs <- validSlashChord word ;;
    if vs then Ret true
    else
      root <- getRoot word ;;
      if negb (validNote root) then Ret false
      else if String.eqb root word then Ret true
      else
        qual <- substr word (size root) npos ;;
        validChordQuality qual.

(** The two functions call each other; [fuel] bounds the depth of the
    calls. *)
Fixpoint validChord_fuel (fuel : nat) (word : string) : result bool :=
  match fuel with
  | O => Raise step_limit
  | S fuel' =>
      validChord_with (validSlashChord_with (validChord_fuel fuel')) word
  end.

Definition validChord (word : string) : result bool :=
  validChord_fuel (S (String.length word)) word.

Definition validSlashChord (word : string) : result bool :=
  validSlashChord_with validChord word.

Definition transposeChord (chord : string) (oldKey newKey : Key)
  : result string :=
  root <- getRoot chord ;;
  let interval := getInterval oldKey newKey in
  let newKeyName := getKeyName newKey in
  let alt := isAltNote newKeyName in
  tranRoot <- transposeNote root interval alt ;;
  let tranRoot := transform_first toupper tranRoot in
  vs <- validSlashChord chord ;;
  if vs then
    let slashInd := find chord "/" 0 in
    preSlQuality <- substr chord (size root) slashInd ;;
    post <- substr chord (slashInd + 1) npos ;;
    newPostSl <- transposeNote post interval alt ;;
    let newPostSl := transform_first toupper newPostSl in
    Ret (tranRoot ++ preSlQuality ++ newPostSl)
  else
    qual <- substr chord (size root) npos ;;
    Ret (tranRoot ++ qual).

(** ** Tab transposer *)

Definition isChordLine (line : string) : result bool :=
  let stream := stringstream line in
  let word := EmptyString in
  let (stream, word) := extract stream word in
  v1 <- validChord word ;;
  if negb v1 then Ret false
  else
    let (stream, word) := extract stream word in
    v2 <- validChord word ;;
    if negb v2 then Ret false else Ret true.

(** The loop [while (lnStream >> word)] of [transposeTab]; it yields the
    final values of [line] and [word]. *)
Fixpoint transposeTab_words (fuel : nat) (lnStream : istream)
    (line word : string) (strInd : Z) (oldKey newKey : Key)
  : result (string * string) :=
  match fuel with
  | O => Raise step_limit
  | S fuel' =>
      let (lnStream, word) := extract lnStream word in
      if failbit lnStream then Ret (line, word)
      else
        vc <- validChord word ;;
        if vc then
          let chordInd := find line word strInd in
          newChord <- transposeChord word oldKey newKey ;;
          line <- replace line chordInd (size word) newChord ;;
          let strInd := strInd + size newChord in
          transposeTab_words fuel' lnStream line word strInd oldKey newKey
        else
          transposeTab_words fuel' lnStream line word strInd oldKey newKey
  end.

(** The loop [while (getline(stream, line))] of [transposeTab]. *)
Fixpoint transposeTab_lines (fuel : nat) (stream : istream)
    (line word newTab : string) (oldKey newKey : Key) : result string :=
  match fuel with
  | O => Raise step_limit
  | S fuel' =>
      let (stream, line) := getline stream line in
      if failbit stream then Ret newTab
      else
        let strInd := 0 in
        cl <- isChordLine line ;;
        lw <- (if cl then
                 let lnStream := stringstream line in
                 transposeTab_words (S (String.length line)) lnStream
                   line word strInd oldKey newKey
               else Ret (line, word)) ;;
        let (line, word) := lw : string * string in
        let newTab := newTab ++ line ++ endl in
        transposeTab_lines fuel' stream line word newTab oldKey newKey
  end.

Definition transposeTab (tab : string) (oldKey newKey : Key) : result string :=
  let stream := stringstream tab in
  transposeTab_lines (S (String.length tab)) stream "" "" "" oldKey newKey.

(** [!(y < x)] on strings: the order [std::sort] leaves the vector in. *)
Definition str_le (x y : string) : Prop := String.ltb y x = false.

(** In the vector [v], everything before index [i] is less than [val]. *)
Definition below (v : list string) (val : string) (i : nat) : Prop :=
  forall k x, (k < i)%nat -> nth_error v k = Some x ->
              String.ltb x val = true.

(** In the vector [v], nothing from index [i] on is less than [val]. *)
Definition not_below (v : list string) (val : string) (i : nat) : Prop :=
  forall k x, (i <= k)%nat -> nth_error v k = Some x ->
              String.ltb x val = false.

(** ** The console session

    [cin] is a stream over everything that will be typed, [cout] is the text
    written so far.  The loops that ask for a key have no bound in the
    source and run on a step budget here. *)

Definition dquote : string := String (ascii_of_nat 34) EmptyString.

Definition welcome : string :=
  "Welcome to Noah's Tab Transposer.  What is the tonic note in the "
  ++ endl ++
  "original key?  (Ex: for the key of A minor you would type 'A')".

Definition prompt : string := endl ++ "> ".

Definition ask_new : string :=
  endl ++ "What is the tonic note in the key you would like to transpose to?".

Definition paste : string :=
  endl ++ "Great, now paste the original tab below and type the word "
  ++ dquote ++ "end" ++ dquote ++ "." ++ endl ++
  "(You can use control+V on Windows or command+V on Mac to paste.)".

Definition banner : string :=
  endl ++ endl ++
  "~/~/~/~/~/~/~/~/~/~/~/~/~/~/~/~/~/~/~/~/~/~/~/~/~/~/~/~/~/~/~/~"
  ++ endl ++ endl ++
  "  Here is your transposed tab!  Copy and paste the text below"
  ++ endl ++
  "  and you are ret2go.  (You can use control+C on Windows or "
  ++ endl ++
  "  command+C on Mac to copy.)"
  ++ endl ++ endl ++
  "~/~/~/~/~/~/~/~/~/~/~/~/~/~/~/~/~/~/~/~/~/~/~/~/~/~/~/~/~/~/~/~"
  ++ endl ++ endl.

(** The loop [while (invalid)] of [userIOKeys]; it yields [cin], [cout]
    and [response]. *)
Fixpoint userIOKeys_loop (fuel : nat) (cin : istream) (cout response : string)
  : result (istream * string * string) :=
  match fuel with
  | O => Raise step_limit
  | S fuel' =>
      let cout := cout ++ prompt in
      let (cin, response) := extract cin response in
      let response := formatNote response in
      if validNote response then Ret (cin, cout, response)
      else userIOKeys_loop fuel' cin cout response
  end.

Definition userIOKeys (fuel : nat) (cin : istream) (cout : string)
  : result (istream * string * Key * Key) :=
  let cout := cout ++ welcome in
  let response := EmptyString in
  r <- userIOKeys_loop fuel cin cout response ;;
  let '(cin, cout, response) := r : istream * string * string in
  oldKey <- Key_of response ;;
  let cout := cout ++ ask_new in
  r <- userIOKeys_loop fuel cin cout response ;;
  let '(cin, cout, response) := r : istream * string * string in
  newKey <- Key_of response ;;
  Ret (cin, cout, oldKey, newKey).

(** The loop [while (getline(cin, response))] of [userIOTab]; it yields
    [cin] and [tab]. *)
Fixpoint userIOTab_loop (fuel : nat) (cin : istream) (response tab : string)
  : result (istream * string) :=
  match fuel with
  | O => Raise step_limit
  | S fuel' =>
      let (cin, response) := getline cin response in
      if failbit cin then Ret (cin, tab)
      else if String.eqb response "end" then Ret (cin, tab)
      else userIOTab_loop fuel' cin response (tab ++ response ++ endl)
  end.

Definition userIOTab (cin : istream) (cout : string) (oldKey newKey : Key)
  : result (istream * string) :=
  let response := EmptyString in
  let tab := EmptyString in
  let cout := cout ++ paste ++ endl in
  r <- userIOTab_loop (S (String.length (unread cin))) cin response tab ;;
  let (cin, tab) := r : istream * string in
  newTab <- transposeTab tab oldKey newKey ;;
  Ret (cin, cout ++ banner ++ newTab ++ endl).

(** [main]: what the program writes when [stdin] is typed.  The vector
    [chords] is the sorted one from here on. *)
Definition main (fuel : nat) (stdin : string) : result string :=
  let cin := stringstream stdin in
  let cout := EmptyString in
  r <- userIOKeys fuel cin cout ;;
  let '(cin, cout, oldKey, newKey) := r : istream * string * Key * Key in
  r <- userIOTab cin cout oldKey newKey ;;
  Ret (snd r).

(** The words that a stream will still deliver. *)
Fixpoint tokens_fuel (fuel : nat) (s : string) : list string :=
  match fuel with
  | O => []
  | S fuel' =>
      match skipws s with
      | EmptyString => []
      | String c s' =>
          let (w, r) := read_word (String c s') in w :: tokens_fuel fuel' r
      end
  end.

Definition tokens (s : string) : list string :=
  tokens_fuel (String.length s) s.

Definition pending (st : istream) : list string :=
  if good st then tokens (unread st) else [].

(** The lines before the first line "end". *)
Fixpoint before_end (ls : list string) : list string :=
  match ls with
  | [] => []
  | l :: ls' => if String.eqb l "end" then [] else l :: before_end ls'
  end.

(** [n] prompts. *)
Fixpoint prompts (n : nat) : string :=
  match n with
  | O => EmptyString
  | S n' => prompt ++ prompts n'
  end.

(** ** Vocabulary of the further properties *)

(** A word without white space, and a run of white space, as [operator>>]
    tells them apart. *)
Fixpoint no_space (s : string) : bool :=
  match s with
  | EmptyString => true
  | String c s' => negb (isspace c) && no_space s'
  end.

Fixpoint all_space (s : string) : bool :=
  match s with
  | EmptyString => true
  | String c s' => isspace c && all_space s'
  end.

(** What may follow a word in a stream: nothing, or white space first. *)
Definition word_end (s : string) : bool :=
  match s with
  | EmptyString => true
  | String c _ => isspace c
  end.

(** The table that the flag [alt] selects. *)
Definition table (alt : bool) : list string :=
  if alt then altNotes else notes.

(** The keys that the constructors of [Key] build: the index is a position
    of the 12-entry tables. *)
Definition Key_wf (k : Key) : Prop := 0 <= keyIndex k < 12.

(** A line, as [getline] cuts it: no newline inside. *)
Fixpoint no_newline (s : string) : bool :=
  match s with
  | EmptyString => true
  | String c s' => negb (Ascii.eqb c newline) && no_newline s'
  end.

(** The text whose lines are [ls], each ended by a newline. *)
Fixpoint unlines (ls : list string) : string :=
  match ls with
  | [] => EmptyString
  | l :: ls' => l ++ endl ++ unlines ls'
  end.

(** A letter that names a note, in either case. *)
Definition note_letter (c : ascii) : bool := mem_char (tolower c) "abcdefg".

(** * Properties *)

(** ** Strings *)

Lemma size_nonneg (s : string) : 0 <= size s.
Proof. unfold size. lia. Qed.

Lemma length_drop (n : nat) (s : string) :
  String.length (drop n s) = (String.length s - n)%nat.
Proof.
  revert s. induction n as [|n IH]; intros [|c s]; simpl; auto.
Qed.

Lemma length_take (n : nat) (s : string) :
  String.length (take n s) = Nat.min n (String.length s).
Proof.
  revert s. induction n as [|n IH]; intros [|c s]; simpl; auto.
Qed.

Lemma take_drop (n : nat) (s : string) : take n s ++ drop n s = s.
Proof.
  revert s. induction n as [|n IH]; intros [|c s]; simpl; auto.
  now rewrite IH.
Qed.

Lemma drop_length_take (n : nat) (s : string) :
  drop (String.length (take n s)) s = drop n s.
Proof.
  revert s. induction n as [|n IH]; intros [|c s]; simpl; auto.
Qed.

Lemma take_all (n : nat) (s : string) :
  (String.length s <= n)%nat -> take n s = s.
Proof.
  revert s. induction n as [|n IH]; intros [|c s]; simpl; intros H; auto.
  - lia.
  - rewrite IH by lia. reflexivity.
Qed.

Lemma append_empty_r (s : string) : s ++ "" = s.
Proof. induction s; simpl; congruence. Qed.

Lemma length_zero_empty (s : string) : String.length s = O -> s = "".
Proof. destruct s; simpl; [reflexivity | discriminate]. Qed.

(** [substr] from position 0 never throws and yields a prefix. *)
Lemma substr_0 (s : string) (count : Z) :
  0 <= count -> substr s 0 count = Ret (take (Z.to_nat count) s).
Proof.
  intros H. unfold substr.
  pose proof (size_nonneg s).
  replace (0 <? 0) with false by reflexivity.
  replace (size s <? 0) with false by (symmetry; apply Z.ltb_ge; lia).
  replace (count <? 0) with false by (symmetry; apply Z.ltb_ge; lia).
  reflexivity.
Qed.

(** [substr] to the end of the string succeeds exactly within bounds. *)
Lemma substr_npos (s : string) (pos : Z) :
  0 <= pos <= size s -> substr s pos npos = Ret (drop (Z.to_nat pos) s).
Proof.
  intros H. unfold substr.
  replace (pos <? 0) with false by (symmetry; apply Z.ltb_ge; lia).
  replace (size s <? pos) with false by (symmetry; apply Z.ltb_ge; lia).
  reflexivity.
Qed.

Lemma prefix_length (p s : string) :
  prefix p s = true -> (String.length p <= String.length s)%nat.
Proof.
  revert s. induction p as [|a p IH]; intros [|b s]; simpl; intros H;
    try lia; try discriminate.
  destruct (ascii_dec a b); [|discriminate].
  apply IH in H. lia.
Qed.

Lemma find_first_bound (pat s : string) (i : nat) :
  find_first pat s = Some i ->
  (i + String.length pat <= String.length s)%nat.
Proof.
  revert i. induction s as [|c s IH]; intros i.
  - cbn [find_first]. destruct (prefix pat "") eqn:E; intros H;
      [|discriminate H].
    injection H as <-. apply prefix_length in E. simpl in *. lia.
  - cbn [find_first]. destruct (prefix pat (String c s)) eqn:E; intros H.
    + injection H as <-. apply prefix_length in E. lia.
    + destruct (find_first pat s) as [j|]; [|discriminate H].
      injection H as <-. specialize (IH j eq_refl). simpl. lia.
Qed.

(** A successful [find] from the start leaves room for the pattern. *)
Lemma find_bound (s pat : string) :
  find s pat 0 <> npos ->
  0 <= find s pat 0 /\ find s pat 0 + size pat <= size s.
Proof.
  unfold find. pose proof (size_nonneg s).
  replace (0 <? 0) with false by reflexivity.
  replace (size s <? 0) with false by (symmetry; apply Z.ltb_ge; lia).
  cbn [orb Z.to_nat drop].
  destruct (find_first pat s) as [i|] eqn:E; [|congruence].
  intros _. apply find_first_bound in E. unfold size. lia.
Qed.

(** ** Note lookup *)

Lemma at_in_range (v : list string) (i : Z) :
  0 <= i < Z.of_nat (List.length v) ->
  exists x, at_ v i = Ret x /\ nth_error v (Z.to_nat i) = Some x.
Proof.
  intros H. unfold at_.
  replace (i <? 0) with false by (symmetry; apply Z.ltb_ge; lia).
  destruct (nth_error v (Z.to_nat i)) as [x|] eqn:E.
  - now exists x.
  - apply nth_error_None in E. lia.
Qed.

Lemma getNoteIndex_loop_total (chromatic : list string) (note : string)
    (k : nat) (i : Z) :
  0 <= i -> i + Z.of_nat k <= Z.of_nat (List.length chromatic) ->
  exists j, getNoteIndex_loop chromatic note i k = Ret j /\
            (j = 0 \/ i <= j < i + Z.of_nat k).
Proof.
  revert i. induction k as [|k IH]; intros i Hi Hk.
  - exists 0. simpl. auto.
  - cbn [getNoteIndex_loop].
    destruct (at_in_range chromatic i) as (x & -> & _); [lia|].
    cbn [bind]. destruct (String.eqb x note).
    + exists i. split; [reflexivity | lia].
    + destruct (IH (i + 1)) as (j & -> & Hj); [lia | lia |].
      exists j. split; [reflexivity | lia].
Qed.

Lemma getNoteIndex_loop_absent (chromatic : list string) (note : string)
    (k : nat) (i : Z) :
  ~ In note chromatic ->
  0 <= i -> i + Z.of_nat k <= Z.of_nat (List.length chromatic) ->
  getNoteIndex_loop chromatic note i k = Ret 0.
Proof.
  intros Hn. revert i. induction k as [|k IH]; intros i Hi Hk.
  - reflexivity.
  - cbn [getNoteIndex_loop].
    destruct (at_in_range chromatic i) as (x & -> & Hx); [lia|].
    cbn [bind]. destruct (String.eqb_spec x note) as [->|_].
    + exfalso. apply Hn. eapply nth_error_In; eauto.
    + apply IH; lia.
Qed.

Lemma getNoteIndex_total (chromatic : list string) (note : string) :
  exists j, getNoteIndex chromatic note = Ret j /\
            (j = 0 \/ 0 <= j < Z.of_nat (List.length chromatic)).
Proof.
  unfold getNoteIndex.
  destruct (getNoteIndex_loop_total chromatic (formatNote note)
              (List.length chromatic) 0) as (j & -> & Hj); [lia | lia |].
  exists j. split; [reflexivity | lia].
Qed.

Lemma Key_of_total (name : string) :
  exists k, Key_of name = Ret k /\ 0 <= keyIndex k < 12 /\
            getKeyName k = name /\ usesAltNotes k = isAltNote name.
Proof.
  unfold Key_of. destruct (isAltNote name).
  - destruct (getNoteIndex_total altNotes name) as (j & -> & Hj).
    eexists. split; [reflexivity|]. cbn in *. repeat split; lia.
  - destruct (getNoteIndex_total notes name) as (j & -> & Hj).
    eexists. split; [reflexivity|]. cbn in *. repeat split; lia.
Qed.

(** ** Root extraction *)

Lemma getRoot_cases (w : string) :
  getRoot w = Ret (take 1 w) \/ getRoot w = Ret (take 2 w).
Proof.
  unfold getRoot.
  destruct (isFlatSharpFive w (-1)) as [found ind].
  rewrite (substr_0 w 1), (substr_0 w 2) by lia.
  change (Z.to_nat 1) with 1%nat. change (Z.to_nat 2) with 2%nat.
  destruct found.
  - destruct (ind =? 2); auto.
  - destruct ((find w "b" 0 =? 1) || (find w "#" 0 =? 1)); auto.
Qed.

Lemma getRoot_take (w : string) :
  exists n, (n = 1 \/ n = 2)%nat /\ getRoot w = Ret (take n w).
Proof.
  destruct (getRoot_cases w); [exists 1%nat | exists 2%nat]; auto.
Qed.

(** The rest of a word after a prefix taken from it is within bounds. *)
Lemma substr_after_take (n : nat) (w : string) :
  substr w (size (take n w)) npos = Ret (drop n w).
Proof.
  assert (Hlen : (String.length (take n w) <= String.length w)%nat).
  { rewrite length_take. lia. }
  rewrite substr_npos by (unfold size; lia). unfold size.
  rewrite Nat2Z.id. now rewrite drop_length_take.
Qed.

(** ** The quality vocabulary *)

Lemma chords_sorted_init : chords = sort chords_init.
Proof. reflexivity. Qed.

Lemma deref_in_range (v : list string) (i : nat) :
  (i < List.length v)%nat -> exists x, deref v i = Ret x.
Proof.
  intros H. unfold deref.
  destruct (nth_error v i) as [x|] eqn:E; [now exists x|].
  apply nth_error_None in E. lia.
Qed.

(** Every dereference of [lower_bound] is inside the range it was given,
    and [len] steps are enough for a range of [len] elements. *)
Lemma lower_bound_total (v : list string) (val : string) (fuel : nat) :
  forall first len : nat,
    (len <= fuel)%nat -> (first + len <= List.length v)%nat ->
    exists i, lower_bound fuel v val first len = Ret i /\
              (first <= i <= first + len)%nat.
Proof.
  induction fuel as [|fuel IH]; intros first len Hf Hv.
  - assert (len = 0)%nat as -> by lia. exists first. simpl. split; [auto|lia].
  - cbn [lower_bound]. destruct (Nat.eqb_spec len 0) as [->|Hlen].
    + exists first. split; [auto|lia].
    + pose proof (Nat.lt_div2 len ltac:(lia)) as Hhalf.
      set (half := Nat.div2 len) in *. clearbody half.
      destruct (deref_in_range v (first + half)) as (x & ->); [lia|].
      cbn [bind]. destruct (String.ltb x val).
      * destruct (IH (S (first + half)) (len - half - 1)%nat)
          as (i & -> & Hi); [lia | lia |].
        exists i. split; [reflexivity | lia].
      * destruct (IH first half) as (i & -> & Hi); [lia | lia |].
        exists i. split; [reflexivity | lia].
Qed.

Lemma binary_search_total (v : list string) (val : string) :
  exists b, binary_search v val = Ret b.
Proof.
  unfold binary_search.
  destruct (lower_bound_total v val (List.length v) 0 (List.length v))
    as (i & -> & Hi); [lia | lia |].
  cbn [bind]. destruct (Nat.eqb_spec i (List.length v)) as [_|Hne].
  - now exists false.
  - destruct (deref_in_range v i) as (x & ->); [lia|].
    cbn [bind]. eauto.
Qed.

Lemma validChordQuality_total (qual : string) :
  exists b, validChordQuality qual = Ret b.
Proof. apply binary_search_total. Qed.

(** ** The mutual recursion of [validChord] and [validSlashChord] *)

(** Where [validSlashChord] splits a word: both [substr] calls are within
    bounds and the part before the slash is strictly shorter than the
    word. *)
Lemma slash_split (w : string) :
  find w "/" 0 <> npos ->
  exists n : nat,
    find w "/" 0 = Z.of_nat n /\
    (n < String.length w)%nat /\
    substr w 0 (find w "/" 0) = Ret (take n w) /\
    substr w (find w "/" 0 + 1) npos = Ret (drop (S n) w) /\
    String.length (take n w) = n.
Proof.
  intros H. destruct (find_bound w "/" H) as [H0 H1].
  change (size "/") with 1 in H1. unfold size in H1.
  exists (Z.to_nat (find w "/" 0)).
  split; [lia|]. split; [lia|]. split; [now apply substr_0|].
  split.
  - rewrite substr_npos by (unfold size; lia). f_equal. f_equal. lia.
  - rewrite length_take. lia.
Qed.

Lemma validSlashChord_with_total (f : string -> result bool) (w : string) :
  (forall p, (String.length p < String.length w)%nat ->
             exists b, f p = Ret b) ->
  exists b, validSlashChord_with f w = Ret b.
Proof.
  intros Hf. unfold validSlashChord_with.
  destruct (Z.eqb_spec (find w "/" 0) npos) as [_|Hfind]; [eauto|].
  destruct (negb (find_first_of w "/" =? find_last_of w "/")); [eauto|].
  destruct (find w "/" 0 =? size w - 1); [eauto|].
  destruct (slash_split w Hfind) as (n & _ & Hn & -> & -> & Hlen).
  cbn [bind]. destruct (Hf (take n w)) as (b & ->); [lia|].
  cbn [bind]. destruct (b && validNote (drop (S n) w)); eauto.
Qed.

Lemma validSlashChord_with_ext (f g : string -> result bool) (w : string) :
  (forall p, (String.length p < String.length w)%nat -> f p = g p) ->
  validSlashChord_with f w = validSlashChord_with g w.
Proof.
  intros Hfg. unfold validSlashChord_with.
  destruct (Z.eqb_spec (find w "/" 0) npos) as [_|Hfind]; [reflexivity|].
  destruct (negb (find_first_of w "/" =? find_last_of w "/")); [reflexivity|].
  destruct (find w "/" 0 =? size w - 1); [reflexivity|].
  destruct (slash_split w Hfind) as (n & _ & Hn & -> & -> & Hlen).
  cbn [bind]. rewrite Hfg by lia. reflexivity.
Qed.

Lemma validChord_with_total (f : string -> result bool) (w : string) :
  (exists b, f w = Ret b) -> exists b, validChord_with f w = Ret b.
Proof.
  intros (vs & Hvs). unfold validChord_with.
  destruct (size w =? 1); [destruct (validNote w); eauto|].
  rewrite Hvs. cbn [bind]. destruct vs; [eauto|].
  destruct (getRoot_take w) as (n & _ & ->).
  cbn [bind]. destruct (negb (validNote (take n w))); [eauto|].
  destruct (String.eqb (take n w) w); [eauto|].
  rewrite substr_after_take. cbn [bind]. apply validChordQuality_total.
Qed.

(** A budget above the length of the word is enough. *)
Lemma validChord_fuel_total (fuel : nat) :
  forall w, (String.length w < fuel)%nat ->
            exists b, validChord_fuel fuel w = Ret b.
Proof.
  induction fuel as [|fuel IH]; intros w Hw; [lia|].
  cbn [validChord_fuel]. apply validChord_with_total.
  apply validSlashChord_with_total. intros p Hp. apply IH. lia.
Qed.

(** Above that bound the budget does not matter. *)
Lemma validChord_fuel_stable (fuel1 : nat) :
  forall fuel2 w,
    (String.length w < fuel1)%nat -> (String.length w < fuel2)%nat ->
    validChord_fuel fuel1 w = validChord_fuel fuel2 w.
Proof.
  induction fuel1 as [|fuel1 IH]; intros fuel2 w H1 H2; [lia|].
  destruct fuel2 as [|fuel2]; [lia|].
  cbn [validChord_fuel]. unfold validChord_with.
  rewrite (validSlashChord_with_ext (validChord_fuel fuel1)
             (validChord_fuel fuel2)); [reflexivity|].
  intros p Hp. apply IH; lia.
Qed.

(** The defining equations of the two functions, as in the source. *)
Lemma validChord_eq (w : string) :
  validChord w = validChord_with validSlashChord w.
Proof.
  unfold validChord at 1. cbn [validChord_fuel]. unfold validChord_with.
  unfold validSlashChord.
  rewrite (validSlashChord_with_ext (validChord_fuel (String.length w))
             validChord); [reflexivity|].
  intros p Hp. unfold validChord. apply validChord_fuel_stable; lia.
Qed.

Lemma validSlashChord_eq (w : string) :
  validSlashChord w = validSlashChord_with validChord w.
Proof. reflexivity. Qed.

Lemma validChord_total (w : string) : exists b, validChord w = Ret b.
Proof. apply validChord_fuel_total. lia. Qed.

Lemma validSlashChord_total (w : string) :
  exists b, validSlashChord w = Ret b.
Proof.
  apply validSlashChord_with_total. intros p _. apply validChord_total.
Qed.

Lemma validNote_spec (w : string) :
  validNote w = true <->
  In (formatNote w) notes \/ In (formatNote w) altNotes.
Proof.
  unfold validNote, formatNote.
  destruct (extract (stringstream w) "") as [st tok].
  set (n := transform tolower tok).
  destruct (existsb (String.eqb n) notes) eqn:E1.
  - split; [intros _; left | reflexivity].
    apply existsb_exists in E1. destruct E1 as (x & Hx & Hnx).
    apply String.eqb_eq in Hnx. now subst.
  - destruct (existsb (String.eqb n) altNotes) eqn:E2.
    + split; [intros _; right | reflexivity].
      apply existsb_exists in E2. destruct E2 as (x & Hx & Hnx).
      apply String.eqb_eq in Hnx. now subst.
    + split; [discriminate|]. intros [H|H].
      * assert (existsb (String.eqb n) notes = true); [|congruence].
        apply existsb_exists. exists n. split; [exact H|apply String.eqb_refl].
      * assert (existsb (String.eqb n) altNotes = true); [|congruence].
        apply existsb_exists. exists n. split; [exact H|apply String.eqb_refl].
Qed.

(** ** [operator<] on strings is a strict total order *)

Lemma ltb_lt (a b : string) : String.ltb a b = true <-> String_as_OT.lt a b.
Proof.
  unfold String.ltb. rewrite <- String_as_OT.cmp_lt. unfold String_as_OT.cmp.
  destruct (String.compare a b); split; congruence.
Qed.

Lemma ltb_irrefl (a : string) : String.ltb a a = false.
Proof.
  destruct (String.ltb a a) eqn:E; [|reflexivity].
  apply ltb_lt in E. apply String_as_OT.lt_not_eq in E.
  exfalso. apply E. reflexivity.
Qed.

Lemma ltb_trans (a b c : string) :
  String.ltb a b = true -> String.ltb b c = true -> String.ltb a c = true.
Proof.
  rewrite !ltb_lt. apply String_as_OT.lt_trans.
Qed.

Lemma ltb_trichotomy (a b : string) :
  String.ltb a b = true \/ a = b \/ String.ltb b a = true.
Proof.
  unfold String.ltb. rewrite (String.compare_antisym b a).
  destruct (String.compare a b) eqn:E; cbn; auto.
  right. left. now apply String.compare_eq_iff.
Qed.

Lemma ltb_asym (a b : string) :
  String.ltb a b = true -> String.ltb b a = false.
Proof.
  intros H. destruct (String.ltb b a) eqn:E; [|reflexivity].
  pose proof (ltb_trans _ _ _ H E) as C. rewrite ltb_irrefl in C. discriminate.
Qed.

Lemma str_le_lt_trans (a b c : string) :
  str_le a b -> String.ltb b c = true -> String.ltb a c = true.
Proof.
  unfold str_le. intros Hab Hbc.
  destruct (ltb_trichotomy a b) as [H | [-> | H]]; [|assumption|congruence].
  eapply ltb_trans; eauto.
Qed.

Lemma str_le_trans (a b c : string) : str_le a b -> str_le b c -> str_le a c.
Proof.
  unfold str_le. intros Hab Hbc.
  destruct (String.ltb c a) eqn:E; [|reflexivity].
  pose proof (str_le_lt_trans _ _ _ Hbc E) as H. congruence.
Qed.

Lemma str_le_antisym (a b : string) : str_le a b -> str_le b a -> a = b.
Proof.
  unfold str_le. intros Hab Hba.
  destruct (ltb_trichotomy a b) as [H | [-> | H]]; congruence.
Qed.

(** ** [std::sort] and [std::binary_search] *)

Lemma insert_sorted_In (x y : string) (l : list string) :
  In x (insert_sorted y l) <-> x = y \/ In x l.
Proof.
  induction l as [|z l IH]; simpl.
  - intuition.
  - destruct (String.ltb z y); simpl; rewrite ?IH; intuition.
Qed.

Lemma sort_In (x : string) (l : list string) : In x (sort l) <-> In x l.
Proof.
  induction l as [|y l IH]; simpl; [tauto|].
  rewrite insert_sorted_In, IH. intuition.
Qed.

Lemma insert_sorted_HdRel (a x : string) (l : list string) :
  str_le a x -> HdRel str_le a l -> HdRel str_le a (insert_sorted x l).
Proof.
  intros Hax Hl. destruct l as [|y l]; simpl.
  - now constructor.
  - inversion Hl; subst. destruct (String.ltb y x); now constructor.
Qed.

Lemma insert_sorted_Sorted (x : string) (l : list string) :
  Sorted str_le l -> Sorted str_le (insert_sorted x l).
Proof.
  induction 1 as [|y l Hs IH Hd]; simpl.
  - repeat constructor.
  - destruct (String.ltb y x) eqn:E.
    + constructor; [assumption|].
      apply insert_sorted_HdRel; [|assumption].
      unfold str_le. now apply ltb_asym.
    + constructor; [now constructor|].
      constructor. exact E.
Qed.

Lemma sort_Sorted (l : list string) : Sorted str_le (sort l).
Proof.
  induction l as [|x l IH]; simpl; [constructor|].
  now apply insert_sorted_Sorted.
Qed.

Section BinarySearch.

Variable v : list string.
Variable val : string.
Hypothesis v_sorted : Sorted str_le v.

(** In a sorted vector, elements are ordered as their indices are. *)
Lemma Sorted_nth (i j : nat) (x y : string) :
  (i <= j)%nat ->
  nth_error v i = Some x -> nth_error v j = Some y -> str_le x y.
Proof.
  assert (Hss : StronglySorted str_le v).
  { apply Sorted_StronglySorted; [|exact v_sorted].
    intros a b c. apply str_le_trans. }
  clear v_sorted. revert i j x y.
  induction Hss as [|a l Hl IH Hall]; intros i j x y Hij Hi Hj.
  - destruct i; discriminate.
  - destruct i as [|i], j as [|j]; simpl in *.
    + injection Hi as <-. injection Hj as <-. unfold str_le.
      apply ltb_irrefl.
    + injection Hi as <-. rewrite Forall_forall in Hall. apply Hall.
      eapply nth_error_In; eauto.
    + lia.
    + eapply IH; [|eassumption..]. lia.
Qed.

(** [lower_bound] returns the partition point of [val]. *)
Lemma lower_bound_partition (fuel : nat) :
  forall first len : nat,
    (len <= fuel)%nat -> (first + len <= List.length v)%nat ->
    below v val first -> not_below v val (first + len) ->
    exists i, lower_bound fuel v val first len = Ret i /\
              (i <= List.length v)%nat /\
              below v val i /\ not_below v val i.
Proof.
  induction fuel as [|fuel IH]; intros first len Hf Hv Hlo Hhi.
  - assert (len = 0)%nat as -> by lia. exists first. simpl.
    rewrite Nat.add_0_r in Hhi. repeat split; [lia | assumption..].
  - cbn [lower_bound]. destruct (Nat.eqb_spec len 0) as [->|Hlen].
    + exists first. rewrite Nat.add_0_r in Hhi.
      repeat split; [lia | assumption..].
    + pose proof (Nat.lt_div2 len ltac:(lia)) as Hhalf.
      set (half := Nat.div2 len) in *. clearbody half.
      unfold deref.
      destruct (nth_error v (first + half)) as [m|] eqn:Em.
      2:{ apply nth_error_None in Em. lia. }
      cbn [bind]. destruct (String.ltb m val) eqn:Elt.
      * apply IH; [lia | lia | | ].
        -- intros k x Hk Hx.
           apply (str_le_lt_trans x m val); [|assumption].
           apply (Sorted_nth k (first + half)); [lia | assumption..].
        -- intros k x Hk. apply Hhi. lia.
      * apply IH; [lia | lia | assumption | ].
        intros k x Hk Hx.
        destruct (String.ltb x val) eqn:Ex; [|reflexivity].
        assert (Hmx : str_le m x).
        { apply (Sorted_nth (first + half) k); [lia | assumption..]. }
        pose proof (str_le_lt_trans _ _ _ Hmx Ex). congruence.
Qed.

(** [binary_search] on a sorted vector is the membership test. *)
Lemma binary_search_In : binary_search v val = Ret true <-> In val v.
Proof.
  unfold binary_search.
  destruct (lower_bound_partition (List.length v) 0 (List.length v))
    as (i & -> & Hi & Hlo & Hhi).
  { lia. } { lia. } { intros k x Hk. lia. }
  { intros k x Hk Hx.
    assert (nth_error v k = None) by (apply nth_error_None; lia).
    congruence. }
  cbn [bind]. destruct (Nat.eqb_spec i (List.length v)) as [->|Hne].
  - split; [discriminate|]. intros Hin.
    apply In_nth_error in Hin. destruct Hin as (k & Hk).
    assert (k < List.length v)%nat by (apply nth_error_Some; congruence).
    pose proof (Hlo k val ltac:(lia) Hk) as C.
    rewrite ltb_irrefl in C. discriminate.
  - unfold deref. destruct (nth_error v i) as [x|] eqn:Ex.
    2:{ apply nth_error_None in Ex. lia. }
    cbn [bind]. pose proof (Hhi i x (le_n i) Ex) as Hxv. split.
    + intros H. injection H as H. apply negb_true_iff in H.
      assert (x = val) as <- by (apply str_le_antisym; assumption).
      eapply nth_error_In; eauto.
    + intros Hin. apply In_nth_error in Hin. destruct Hin as (k & Hk).
      assert (Hik : (i <= k)%nat).
      { destruct (Nat.le_gt_cases i k) as [|Hlt]; [assumption|].
        pose proof (Hlo k val Hlt Hk) as C.
        rewrite ltb_irrefl in C. discriminate. }
      pose proof (Sorted_nth i k x val Hik Ex Hk) as Hle.
      unfold str_le in Hle. rewrite Hle. reflexivity.
Qed.

End BinarySearch.

Lemma chords_Sorted : Sorted str_le chords.
Proof. rewrite chords_sorted_init. apply sort_Sorted. Qed.

(** [validChordQuality] accepts exactly the normalised spellings of the
    vocabulary. *)
Lemma validChordQuality_spec (qual : string) :
  validChordQuality qual = Ret true <-> In (formatNote qual) chords_init.
Proof.
  unfold validChordQuality.
  rewrite (binary_search_In chords (formatNote qual) chords_Sorted).
  rewrite chords_sorted_init. apply sort_In.
Qed.

(** ** One-character words *)

Lemma validSlashChord_one_char (w : string) :
  size w = 1 -> validSlashChord w = Ret false.
Proof.
  intros Hw. unfold validSlashChord, validSlashChord_with.
  destruct (Z.eqb_spec (find w "/" 0) npos) as [_|Hfind]; [reflexivity|].
  destruct (negb (find_first_of w "/" =? find_last_of w "/")); [reflexivity|].
  destruct (Z.eqb_spec (find w "/" 0) (size w - 1)) as [_|Hne]; [reflexivity|].
  destruct (find_bound w "/" Hfind) as [H0 H1].
  change (size "/") with 1 in H1. lia.
Qed.

Lemma getRoot_one_char (w : string) : size w = 1 -> getRoot w = Ret w.
Proof.
  intros Hw. destruct (getRoot_take w) as (n & Hn & ->).
  rewrite take_all; [reflexivity|]. unfold size in Hw. lia.
Qed.

Lemma take_whole_drop_empty (n : nat) (w : string) :
  take n w = w -> drop n w = "".
Proof.
  intros H. apply length_zero_empty. rewrite length_drop.
  apply (f_equal String.length) in H. rewrite length_take in H. lia.
Qed.

(** ** Alternate spellings *)



(** Case analysis on [H : In x [e1; ...; en]]: each goal is closed by
    computation once [x] is the literal entry, or by an excluded entry. *)
Ltac each_entry H :=
  cbn [In] in H;
  repeat (destruct H as [H|H];
          [first [rewrite <- H; reflexivity | congruence]|]);
  contradiction.

(** ** Claims *)

(** C1: [getRoot] on the token "Bb7b5#9".  The only altered-fifth-and-ninth
    suffix of the token starts at index 3, neither at 1 nor at 2, and the
    character at position 1 is the accidental 'b'; [isFlatSharpFive] still
    reports the suffix, the accidental test of the [else] branch is skipped,
    and the root is the single character "B".  As a result the token is not
    a valid chord although "Bb" is a valid note and "7b5#9" a quality of the
    vocabulary. *)
Theorem getRoot_late_suffix_hides_accidental :
  find "Bb7b5#9" "b5#9" 0 = 3 /\
  find "Bb7b5#9" "b5b9" 0 = npos /\
  find "Bb7b5#9" "#5b9" 0 = npos /\
  find "Bb7b5#9" "#5#9" 0 = npos /\
  isFlatSharpFive "Bb7b5#9" (-1) = (true, 3) /\
  find "Bb7b5#9" "b" 0 = 1 /\
  getRoot "Bb7b5#9" = Ret "B" /\
  validNote "Bb" = true /\
  validChordQuality "7b5#9" = Ret true /\
  validChord "Bb7b5#9" = Ret false.
Proof. repeat split; reflexivity. Qed.

(** C2: [transposeChord] on the slash chord "Bbmaj7#11/A", from the key of A
    to the key of F.  The root "Bb" has two characters, and
    [chord.substr(root.size(), slashInd)] takes [slashInd] characters, not
    the characters up to [slashInd]: the copied middle part is "maj7#11/A",
    the old bass note included, and the result carries it next to the new
    one. *)
Theorem transposeChord_slash_two_char_root :
  exists oldKey newKey,
    Key_of "a" = Ret oldKey /\ Key_of "f" = Ret newKey /\
    validSlashChord "Bbmaj7#11/A" = Ret true /\
    getRoot "Bbmaj7#11/A" = Ret "Bb" /\
    substr "Bbmaj7#11/A" (size "Bb") (find "Bbmaj7#11/A" "/" 0)
      = Ret "maj7#11/A" /\
    transposeChord "Bbmaj7#11/A" oldKey newKey = Ret "F#maj7#11/AF".
Proof. do 2 eexists. repeat split; reflexivity. Qed.

(** C3, as amended: [validChord] accepts a word exactly when it is a valid
    note of one character, or a valid slash chord, or its root is a valid
    note and the rest of the word after the root is empty or, once
    normalised, a spelling of the quality vocabulary. *)
Theorem validChord_iff (w : string) :
  validChord w = Ret true <->
  (size w = 1 /\ validNote w = true) \/
  validSlashChord w = Ret true \/
  (exists root rem,
      getRoot w = Ret root /\ validNote root = true /\
      substr w (size root) npos = Ret rem /\
      (rem = "" \/ In (formatNote rem) chords_init)).
Proof.
  rewrite validChord_eq. unfold validChord_with.
  destruct (Z.eqb_spec (size w) 1) as [H1|H1].
  - split.
    + destruct (validNote w) eqn:E; [intros _; left; auto | discriminate].
    + intros [[_ Hn] | [Hs | (root & rem & Hr & Hv & _)]].
      * now rewrite Hn.
      * rewrite validSlashChord_one_char in Hs by assumption. discriminate.
      * rewrite getRoot_one_char in Hr by assumption.
        injection Hr as <-. now rewrite Hv.
  - destruct (validSlashChord_total w) as (vs & Hvs). rewrite Hvs. cbn [bind].
    destruct vs; [split; auto|].
    destruct (getRoot_take w) as (n & _ & Hroot). rewrite Hroot. cbn [bind].
    destruct (validNote (take n w)) eqn:Hvn; cbn [negb].
    + destruct (String.eqb_spec (take n w) w) as [Heq|Hneq].
      * split; [intros _ | reflexivity]. right. right.
        exists (take n w), (drop n w).
        repeat split; auto using substr_after_take.
        left. now apply take_whole_drop_empty.
      * rewrite substr_after_take. cbn [bind]. split.
        -- intros H. right. right. exists (take n w), (drop n w).
           repeat split; auto using substr_after_take.
           right. now apply validChordQuality_spec.
        -- intros [[Hs _] | [Hs | (root & rem & Hr & Hv & Hsub & Hrem)]];
             [contradiction | discriminate |].
           injection Hr as <-. rewrite substr_after_take in Hsub.
           injection Hsub as <-. destruct Hrem as [Hrem|Hrem].
           ++ exfalso. apply Hneq. rewrite <- (take_drop n w) at 2.
              rewrite Hrem. symmetry. apply append_empty_r.
           ++ now apply validChordQuality_spec.
    + split; [discriminate|].
      intros [[Hs _] | [Hs | (root & rem & Hr & Hv & _)]];
        [contradiction | discriminate |].
      injection Hr as <-. congruence.
Qed.

Lemma validChord_iff_witness : validChord "Am7" = Ret true.
Proof.
  apply (validChord_iff "Am7"). right. right. exists "A", "m7".
  repeat split; try reflexivity. right. vm_compute. tauto.
Defined.

(** C3, as stated, fails at "AB" and at "bb".  Both are valid note names
    for [validNote], which lowers the case of every character of "AB" and
    finds "bb" in the natural table; but they have two characters, so
    [validChord] goes through [getRoot], which gives the roots "A" and "b",
    and the rests "B" and "b" are not qualities. *)
Lemma validChord_whole_note_counterexample :
  ~ (validChord "AB" = Ret true <->
     validNote "AB" = true \/
     validSlashChord "AB" = Ret true \/
     (exists root rem,
         getRoot "AB" = Ret root /\ validNote root = true /\
         substr "AB" (size root) npos = Ret rem /\
         (rem = "" \/ In (formatNote rem) chords_init))) /\
  ~ (validChord "bb" = Ret true <->
     validNote "bb" = true \/
     validSlashChord "bb" = Ret true \/
     (exists root rem,
         getRoot "bb" = Ret root /\ validNote root = true /\
         substr "bb" (size root) npos = Ret rem /\
         (rem = "" \/ In (formatNote rem) chords_init))).
Proof.
  split; intros [_ H].
  - assert (C : validChord "AB" = Ret true) by (apply H; left; reflexivity).
    vm_compute in C. discriminate.
  - assert (C : validChord "bb" = Ret true) by (apply H; left; reflexivity).
    vm_compute in C. discriminate.
Qed.

(** C4: [transposeTab] on the chord line " C F", from the key of C to the
    key of F.  After "C" at index 1 has become "F" the cursor is
    [strInd = 1], the length of the replacement and not the position of its
    end; the next word "F" is then found at index 1, inside the replacement,
    and it is the inserted "F" that becomes "Bb". *)
Theorem transposeTab_cursor_rematch :
  exists oldKey newKey,
    Key_of "c" = Ret oldKey /\ Key_of "f" = Ret newKey /\
    transposeChord "C" oldKey newKey = Ret "F" /\
    transposeChord "F" oldKey newKey = Ret "Bb" /\
    find " F F" "F" (0 + size "F") = 1 /\
    transposeTab (" C F" ++ endl) oldKey newKey = Ret (" Bb F" ++ endl).
Proof. do 2 eexists. repeat split; reflexivity. Qed.


(** C5: [transposeNote] at interval 0 on the seven spellings that only the
    alternate table holds.  [isAltNote] compares the note, as it was given,
    with five of them: it lists neither "b#" nor "e#", and it does not
    normalise its argument as [validNote] and [getNoteIndex] do.  Every
    other valid spelling of the seven - "b#", "e#", and the five written
    with a capital or with white space around them - is looked up in the
    natural table, which does not hold it; [getNoteIndex] falls back to 0
    and the note comes back as the entry at position 0, "g#" from the
    alternate table and "ab" from the natural one. *)
Theorem transposeNote_zero_alternate_fallback (n : string) :
  In (formatNote n) ["g#"; "a#"; "b#"; "c#"; "d#"; "e#"; "gb"] ->
  isAltNote n = false ->
  validNote n = true /\
  In (formatNote n) altNotes /\ ~ In (formatNote n) notes /\
  getNoteIndex notes n = Ret 0 /\
  transposeNote n 0 true = Ret "g#" /\
  transposeNote n 0 false = Ret "ab".
Proof.
  intros H Halt. cbn [In] in H.
  assert (Hidx : getNoteIndex notes n = Ret 0).
  { unfold getNoteIndex.
    repeat (destruct H as [H|H]; [rewrite <- H; reflexivity|]).
    contradiction. }
  assert (Hin : In (formatNote n) altNotes).
  { repeat (destruct H as [H|H]; [rewrite <- H; vm_compute; tauto|]).
    contradiction. }
  assert (Hout : ~ In (formatNote n) notes).
  { intros Hn.
    repeat (destruct H as [H|H];
            [rewrite <- H in Hn; vm_compute in Hn; intuition discriminate|]).
    contradiction. }
  split; [apply validNote_spec; right; exact Hin|].
  split; [exact Hin|]. split; [exact Hout|]. split; [exact Hidx|].
  unfold transposeNote. rewrite Halt, Hidx. split; reflexivity.
Qed.

(** The entries "b#" and "e#" of the alternate table and the capitalised
    "C#" all come back as "g#"; and the chord "C#m", transposed from the
    key of E to the key of E, comes back as "Abm". *)
Lemma transposeNote_zero_alternate_fallback_witness :
  transposeNote "b#" 0 true = Ret "g#" /\
  transposeNote "e#" 0 true = Ret "g#" /\
  transposeNote "C#" 0 true = Ret "g#" /\
  (exists k, Key_of "e" = Ret k /\ transposeChord "C#m" k k = Ret "Abm").
Proof.
  split; [|split; [|split]].
  - apply (transposeNote_zero_alternate_fallback "b#");
      [vm_compute; tauto | reflexivity].
  - apply (transposeNote_zero_alternate_fallback "e#");
      [vm_compute; tauto | reflexivity].
  - apply (transposeNote_zero_alternate_fallback "C#");
      [vm_compute; tauto | reflexivity].
  - eexists. split; reflexivity.
Defined.

(** C6: for keys constructed from any two names, the key indices are in
    [0,12); [getInterval] is in [0,12) and is the difference of the indices
    modulo 12; the intervals in the two directions add up to 0 modulo 12;
    and each of them, hence both, is 0 exactly when the two keys have the
    same index. *)
Theorem getInterval_mod_12 (name1 name2 : string) :
  exists k1 k2,
    Key_of name1 = Ret k1 /\ Key_of name2 = Ret k2 /\
    0 <= keyIndex k1 < 12 /\ 0 <= keyIndex k2 < 12 /\
    0 <= getInterval k1 k2 < 12 /\
    getInterval k1 k2 = (keyIndex k2 - keyIndex k1) mod 12 /\
    (getInterval k1 k2 + getInterval k2 k1) mod 12 = 0 /\
    (getInterval k1 k2 = 0 <-> keyIndex k1 = keyIndex k2) /\
    (getInterval k2 k1 = 0 <-> keyIndex k1 = keyIndex k2) /\
    (getInterval k1 k2 = 0 /\ getInterval k2 k1 = 0 <->
     keyIndex k1 = keyIndex k2).
Proof.
  destruct (Key_of_total name1) as (k1 & -> & H1 & _).
  destruct (Key_of_total name2) as (k2 & -> & H2 & _).
  exists k1, k2. unfold getInterval.
  set (a := keyIndex k1) in *. set (b := keyIndex k2) in *.
  clearbody a b.
  destruct (Z.ltb_spec (b - a) 0) as [Hab|Hab];
    destruct (Z.ltb_spec (a - b) 0) as [Hba|Hba]; try lia.
  - repeat split; try lia.
    + apply (Z.mod_unique (b - a) 12 (-1)); lia.
    + replace (12 + (b - a) + (a - b)) with (1 * 12) by lia.
      apply Z.mod_mul. lia.
  - repeat split; try lia.
    + symmetry. apply Z.mod_small. lia.
    + replace (b - a + (12 + (a - b))) with (1 * 12) by lia.
      apply Z.mod_mul. lia.
  - assert (a = b) as -> by lia.
    replace (b - b) with 0 by lia. repeat split; try lia; reflexivity.
Qed.

(** C7: [transposeTab] on the one-word line "A", from the key of A to the
    key of C.  The second extraction of [isChordLine] fails and leaves
    [word] as it was, so the first word is tested twice, the line counts as
    a chord line and its only word is transposed. *)
Theorem transposeTab_single_chord_line :
  exists oldKey newKey,
    Key_of "a" = Ret oldKey /\ Key_of "c" = Ret newKey /\
    snd (extract (fst (extract (stringstream "A") "")) "A") = "A" /\
    isChordLine "A" = Ret true /\
    transposeTab ("A" ++ endl) oldKey newKey = Ret ("C" ++ endl).
Proof. do 2 eexists. repeat split; reflexivity. Qed.

(** C8: the grammar predicates and the note lookup are total.  For every
    string, [validChord], [validSlashChord] and [validChordQuality] return a
    boolean: no [substr], [at] or iterator dereference leaves its bounds, and
    the recursion ends.  [validNote] is the membership test of the normalised
    word in the two tables.  [getNoteIndex] returns an index in [0,12) on
    either table, and the fallback 0 on any table that does not hold the
    normalised note. *)
Theorem grammar_total (w : string) :
  (exists b, validChord w = Ret b) /\
  (exists b, validSlashChord w = Ret b) /\
  (exists b, validChordQuality w = Ret b) /\
  (validNote w = true <->
   In (formatNote w) notes \/ In (formatNote w) altNotes) /\
  (exists i, getNoteIndex notes w = Ret i /\ 0 <= i < 12) /\
  (exists i, getNoteIndex altNotes w = Ret i /\ 0 <= i < 12) /\
  (forall chromatic : list string,
      ~ In (formatNote w) chromatic -> getNoteIndex chromatic w = Ret 0).
Proof.
  split; [apply validChord_total|].
  split; [apply validSlashChord_total|].
  split; [apply validChordQuality_total|].
  split; [apply validNote_spec|].
  split.
  { destruct (getNoteIndex_total notes w) as (i & Hi & Hb).
    exists i. split; [exact Hi|]. cbn in Hb. lia. }
  split.
  { destruct (getNoteIndex_total altNotes w) as (i & Hi & Hb).
    exists i. split; [exact Hi|]. cbn in Hb. lia. }
  intros chromatic Habs. unfold getNoteIndex.
  apply getNoteIndex_loop_absent; [exact Habs | lia | lia].
Qed.

Lemma grammar_total_witness :
  getNoteIndex notes "h" = Ret 0 /\
  getNoteIndex altNotes "c" = Ret 0 /\
  validNote "Bb" = true.
Proof.
  destruct (grammar_total "h") as (_ & _ & _ & _ & _ & _ & Hh).
  destruct (grammar_total "c") as (_ & _ & _ & _ & _ & _ & Hc).
  destruct (grammar_total "Bb") as (_ & _ & _ & Hv & _).
  split; [|split].
  - apply Hh. vm_compute. intuition discriminate.
  - apply Hc. vm_compute. intuition discriminate.
  - apply Hv. vm_compute. tauto.
Defined.

(** C9: with the old key "a" and the new key "c", the key indices are 1 and
    4, the interval is 3, "A" becomes "C", and "Am7" has the root "A" and
    becomes "Cm7". *)
Theorem example_a_to_c :
  exists oldKey newKey,
    Key_of "a" = Ret oldKey /\ Key_of "c" = Ret newKey /\
    keyIndex oldKey = 1 /\ keyIndex newKey = 4 /\
    getInterval oldKey newKey = 3 /\
    transposeChord "A" oldKey newKey = Ret "C" /\
    getRoot "Am7" = Ret "A" /\
    transposeChord "Am7" oldKey newKey = Ret "Cm7".
Proof. do 2 eexists. repeat split; reflexivity. Qed.

(** C10: for every word, [getRoot] returns a prefix of it, empty for the
    empty word and of one or two characters otherwise; hence the extraction
    [w.substr(getRoot(w).size())] made by [validChord] and [transposeChord]
    is within bounds, and yields the rest of the word. *)
Theorem getRoot_prefix (w : string) :
  exists root qual,
    getRoot w = Ret root /\
    substr w (size root) npos = Ret qual /\
    w = root ++ qual /\
    (w = "" -> root = "") /\
    (w <> "" -> size root = 1 \/ size root = 2).
Proof.
  destruct (getRoot_take w) as (n & Hn & ->).
  exists (take n w), (drop n w). split; [reflexivity|].
  split; [apply substr_after_take|].
  split; [now rewrite take_drop|].
  split.
  - intros ->. now destruct Hn as [-> | ->].
  - intros Hw. unfold size. rewrite length_take.
    destruct w as [|c [|d w]]; [congruence | |]; simpl; lia.
Qed.

Lemma getRoot_prefix_witness :
  exists root qual,
    getRoot "Gb5#9" = Ret root /\
    substr "Gb5#9" (size root) npos = Ret qual /\
    "Gb5#9" = root ++ qual /\
    (size root = 1 \/ size root = 2).
Proof.
  destruct (getRoot_prefix "Gb5#9") as (root & qual & Hr & Hq & Hw & _ & Hs).
  exists root, qual. repeat split; try assumption.
  apply Hs. discriminate.
Defined.

(** * Further properties *)

(** ** Normalisation of a note or quality spelling *)

Lemma isspace_tolower (c : ascii) : isspace (tolower c) = isspace c.
Proof. destruct c as [[] [] [] [] [] [] [] []]; reflexivity. Qed.

Lemma isspace_toupper (c : ascii) : isspace (toupper c) = isspace c.
Proof. destruct c as [[] [] [] [] [] [] [] []]; reflexivity. Qed.

Lemma tolower_tolower (c : ascii) : tolower (tolower c) = tolower c.
Proof. destruct c as [[] [] [] [] [] [] [] []]; reflexivity. Qed.

Lemma tolower_toupper (c : ascii) : tolower (toupper c) = tolower c.
Proof. destruct c as [[] [] [] [] [] [] [] []]; reflexivity. Qed.

(** [formatNote] lowers the first word of its input. *)
Lemma formatNote_read_word (s : string) :
  formatNote s = transform tolower (fst (read_word (skipws s))).
Proof.
  unfold formatNote, extract. cbn [good stringstream eofbit failbit unread].
  cbn [negb andb]. destruct (skipws s) as [|c s'] eqn:E; [reflexivity|].
  destruct (read_word (String c s')) as [w r]. reflexivity.
Qed.

Lemma skipws_all_space (ws s : string) :
  all_space ws = true -> skipws (ws ++ s) = skipws s.
Proof.
  induction ws as [|c ws IH]; cbn; [reflexivity|].
  intros H. apply andb_true_iff in H. destruct H as [Hc Hws].
  rewrite Hc. auto.
Qed.

Lemma skipws_word (w s : string) :
  no_space w = true -> w <> "" -> skipws (w ++ s) = w ++ s.
Proof.
  destruct w as [|c w]; [congruence|]. cbn. intros H _.
  apply andb_true_iff in H. destruct H as [Hc _].
  apply negb_true_iff in Hc. now rewrite Hc.
Qed.

Lemma read_word_word (w s : string) :
  no_space w = true -> word_end s = true -> read_word (w ++ s) = (w, s).
Proof.
  induction w as [|c w IH]; cbn.
  - intros _ Hs. destruct s as [|d s]; [reflexivity|].
    cbn in Hs. cbn. now rewrite Hs.
  - intros H Hs. apply andb_true_iff in H. destruct H as [Hc Hw].
    apply negb_true_iff in Hc. rewrite Hc, IH by assumption. reflexivity.
Qed.

(** What [read_word] returns: a word, and a rest that a word may end at. *)
Lemma read_word_spec (s : string) :
  no_space (fst (read_word s)) = true /\
  word_end (snd (read_word s)) = true /\
  s = fst (read_word s) ++ snd (read_word s).
Proof.
  induction s as [|c s IH]; cbn; [auto|].
  destruct (isspace c) eqn:Ec; cbn.
  - now rewrite Ec.
  - destruct (read_word s) as [w r]. cbn in *. rewrite Ec. cbn.
    destruct IH as (Hw & Hr & Hs). repeat split; auto. now f_equal.
Qed.

Lemma no_space_transform (f : ascii -> ascii) (s : string) :
  (forall c, isspace (f c) = isspace c) ->
  no_space (transform f s) = no_space s.
Proof.
  intros Hf. induction s as [|c s IH]; cbn; [reflexivity|].
  now rewrite Hf, IH.
Qed.

Lemma skipws_transform (f : ascii -> ascii) (s : string) :
  (forall c, isspace (f c) = isspace c) ->
  skipws (transform f s) = transform f (skipws s).
Proof.
  intros Hf. induction s as [|c s IH]; cbn; [reflexivity|].
  rewrite Hf. destruct (isspace c); [exact IH | reflexivity].
Qed.

Lemma read_word_transform (f : ascii -> ascii) (s : string) :
  (forall c, isspace (f c) = isspace c) ->
  fst (read_word (transform f s)) = transform f (fst (read_word s)).
Proof.
  intros Hf. induction s as [|c s IH]; cbn; [reflexivity|].
  rewrite Hf. destruct (isspace c); [reflexivity|].
  destruct (read_word (transform f s)) as [w r].
  destruct (read_word s) as [w' r']. cbn in *. now rewrite IH.
Qed.

Lemma transform_compose (f g h : ascii -> ascii) (s : string) :
  (forall c, f (g c) = h c) ->
  transform f (transform g s) = transform h s.
Proof.
  intros H. induction s as [|c s IH]; cbn; [reflexivity|].
  now rewrite H, IH.
Qed.

Lemma transform_append (f : ascii -> ascii) (s t : string) :
  transform f (s ++ t) = transform f s ++ transform f t.
Proof. induction s as [|c s IH]; cbn; [reflexivity|]. now rewrite IH. Qed.

(** A lower-case word without white space is its own normal form. *)
Lemma formatNote_fixed (w : string) :
  no_space w = true -> transform tolower w = w -> formatNote w = w.
Proof.
  intros Hw Hl. rewrite formatNote_read_word.
  destruct w as [|c w]; [reflexivity|].
  rewrite <- (append_empty_r (String c w)) at 1.
  rewrite skipws_word by (assumption || discriminate).
  rewrite read_word_word by (assumption || reflexivity). exact Hl.
Qed.

Lemma formatNote_no_space (s : string) : no_space (formatNote s) = true.
Proof.
  rewrite formatNote_read_word.
  rewrite no_space_transform by apply isspace_tolower.
  apply read_word_spec.
Qed.

Lemma formatNote_lower (s : string) :
  transform tolower (formatNote s) = formatNote s.
Proof.
  rewrite formatNote_read_word. apply transform_compose, tolower_tolower.
Qed.

Lemma formatNote_toupper (s : string) :
  formatNote (transform toupper s) = formatNote s.
Proof.
  rewrite !formatNote_read_word.
  rewrite skipws_transform, read_word_transform by apply isspace_toupper.
  apply transform_compose, tolower_toupper.
Qed.

Lemma formatNote_tolower (s : string) :
  formatNote (transform tolower s) = formatNote s.
Proof.
  rewrite !formatNote_read_word.
  rewrite skipws_transform, read_word_transform by apply isspace_tolower.
  apply transform_compose, tolower_tolower.
Qed.

Lemma skipws_only_space (s : string) : all_space s = true -> skipws s = "".
Proof.
  induction s as [|c s IH]; cbn; [reflexivity|].
  intros H. apply andb_true_iff in H. destruct H as [Hc Hs].
  rewrite Hc. auto.
Qed.

(** X1: [formatNote] returns the first white-space-delimited word of its
    input in lower case, whatever surrounds it, and the empty string when
    there is no word; the result holds no white space and no upper-case
    letter, and normalising it again changes nothing. *)
Theorem formatNote_normal_form (s ws w rest : string) :
  (all_space ws = true -> no_space w = true -> w <> "" ->
   word_end rest = true ->
   formatNote (ws ++ w ++ rest) = transform tolower w) /\
  (all_space s = true -> formatNote s = "") /\
  no_space (formatNote s) = true /\
  transform tolower (formatNote s) = formatNote s /\
  formatNote (formatNote s) = formatNote s.
Proof.
  split; [|split; [|split; [|split]]].
  - intros Hws Hw Hne Hrest. rewrite formatNote_read_word.
    rewrite skipws_all_space by assumption.
    rewrite skipws_word by assumption.
    now rewrite read_word_word.
  - intros Hs. rewrite formatNote_read_word.
    now rewrite skipws_only_space.
  - apply formatNote_no_space.
  - apply formatNote_lower.
  - apply formatNote_fixed; [apply formatNote_no_space | apply formatNote_lower].
Qed.

Lemma formatNote_normal_form_witness :
  formatNote "  F# Minor" = "f#" /\ formatNote "   " = "".
Proof.
  destruct (formatNote_normal_form "   " "  " "F#" " Minor")
    as (H1 & H2 & _).
  split; [apply H1; reflexivity || discriminate | apply H2; reflexivity].
Defined.

(** ** Case and the first letter *)

Lemma formatNote_transform_first (f : ascii -> ascii) (s : string) :
  (forall c, isspace (f c) = isspace c) ->
  (forall c, tolower (f c) = tolower c) ->
  formatNote (transform_first f s) = formatNote s.
Proof.
  intros Hs Hl. rewrite !formatNote_read_word.
  destruct s as [|c s]; [reflexivity|]. cbn [transform_first skipws].
  rewrite Hs. destruct (isspace c) eqn:E; [reflexivity|].
  cbn [read_word]. rewrite Hs, E.
  destruct (read_word s) as [w r]. cbn [fst transform]. now rewrite Hl.
Qed.

Lemma validNote_formatNote (s : string) :
  validNote s =
  existsb (String.eqb (formatNote s)) notes ||
  existsb (String.eqb (formatNote s)) altNotes.
Proof.
  unfold validNote, formatNote.
  destruct (extract (stringstream s) "") as [st tok].
  destruct (existsb (String.eqb (transform tolower tok)) notes);
    [reflexivity|].
  destruct (existsb (String.eqb (transform tolower tok)) altNotes);
    reflexivity.
Qed.

(** Everything that looks a spelling up sees its normal form only. *)
Lemma lookups_by_normal_form (s t : string) :
  formatNote s = formatNote t ->
  validNote s = validNote t /\
  validChordQuality s = validChordQuality t /\
  forall chromatic, getNoteIndex chromatic s = getNoteIndex chromatic t.
Proof.
  intros H. rewrite !validNote_formatNote.
  unfold validChordQuality, getNoteIndex. rewrite H. auto.
Qed.

Lemma isspace_case_change (f : ascii -> ascii) :
  (forall c, tolower (f c) = tolower c) ->
  forall c, isspace (f c) = isspace c.
Proof.
  intros Hf c. rewrite <- (isspace_tolower (f c)), Hf.
  apply isspace_tolower.
Qed.

(** X2: [validNote], [validChordQuality] and [getNoteIndex] do not depend
    on the case of their argument: for every map [f] of characters that
    changes case only, such as [toupper], applying [f] to the whole word, or
    to its first letter as [transposeChord] does with the notes it emits,
    gives the same answer. *)
Theorem lookups_ignore_case (f : ascii -> ascii) (s : string)
    (chromatic : list string) :
  (forall c, tolower (f c) = tolower c) ->
  (validNote (transform f s) = validNote s /\
   validChordQuality (transform f s) = validChordQuality s /\
   getNoteIndex chromatic (transform f s) = getNoteIndex chromatic s) /\
  (validNote (transform_first f s) = validNote s /\
   validChordQuality (transform_first f s) = validChordQuality s /\
   getNoteIndex chromatic (transform_first f s) = getNoteIndex chromatic s).
Proof.
  intros Hf. pose proof (isspace_case_change f Hf) as Hs.
  assert (H1 : formatNote (transform f s) = formatNote s).
  { rewrite !formatNote_read_word.
    rewrite skipws_transform, read_word_transform by assumption.
    now apply transform_compose. }
  assert (H2 : formatNote (transform_first f s) = formatNote s)
    by now apply formatNote_transform_first.
  destruct (lookups_by_normal_form _ _ H1) as (A1 & A2 & A3).
  destruct (lookups_by_normal_form _ _ H2) as (B1 & B2 & B3).
  repeat split; auto.
Qed.

Lemma lookups_ignore_case_witness :
  validNote "BB" = validNote "bb" /\
  validChordQuality "Maj7" = validChordQuality "maj7".
Proof.
  destruct (lookups_ignore_case toupper "bb" notes tolower_toupper)
    as ((H1 & _) & _).
  destruct (lookups_ignore_case toupper "maj7" notes tolower_toupper)
    as (_ & (_ & H2 & _)).
  split; [exact H1 | exact H2].
Defined.

(** X3: [validChordQuality], which runs [binary_search] on the vector that
    [main] has sorted, is the membership test of the normalised spelling in
    the vocabulary as it is written in the source: it never fails, and it
    answers true exactly for the entries. *)
Theorem validChordQuality_vocabulary (qual : string) :
  (validChordQuality qual = Ret true <-> In (formatNote qual) chords_init) /\
  (validChordQuality qual = Ret false <->
   ~ In (formatNote qual) chords_init).
Proof.
  pose proof (validChordQuality_spec qual) as H.
  destruct (validChordQuality_total qual) as ([] & Hb); rewrite Hb in *.
  - split; [exact H|]. split; [discriminate|].
    intros Hn. exfalso. apply Hn. now apply H.
  - split; [exact H|]. split; [|reflexivity].
    intros _ Hin. apply H in Hin. discriminate.
Qed.

(** ** Looking a note up *)

Lemma at_nth_error (v : list string) (i : Z) (x : string) :
  at_ v i = Ret x <->
  0 <= i < Z.of_nat (List.length v) /\ nth_error v (Z.to_nat i) = Some x.
Proof.
  unfold at_. destruct (Z.ltb_spec i 0) as [Hi|Hi].
  - split; [discriminate | lia].
  - destruct (nth_error v (Z.to_nat i)) as [y|] eqn:E.
    + split.
      * intros [= <-]. split; [|reflexivity].
        assert (Z.to_nat i < List.length v)%nat
          by (apply nth_error_Some; congruence). lia.
      * intros [_ [= <-]]. reflexivity.
    + split; [discriminate|]. intros [_ H]. discriminate.
Qed.

Lemma getNoteIndex_loop_first (chromatic : list string) (note : string)
    (k : nat) :
  forall i : Z,
    0 <= i -> i + Z.of_nat k = Z.of_nat (List.length chromatic) ->
    (exists j, i <= j /\ at_ chromatic j = Ret note) ->
    exists r, getNoteIndex_loop chromatic note i k = Ret r /\
              i <= r /\ at_ chromatic r = Ret note /\
              forall j, i <= j < r -> at_ chromatic j <> Ret note.
Proof.
  induction k as [|k IH]; intros i Hi Hk (j & Hij & Hj).
  - apply at_nth_error in Hj. lia.
  - cbn [getNoteIndex_loop].
    destruct (at_in_range chromatic i) as (x & Hx & _); [lia|].
    rewrite Hx. cbn [bind].
    destruct (String.eqb_spec x note) as [->|Hne].
    + exists i. repeat split; [lia | assumption | intros; lia].
    + destruct (IH (i + 1)) as (r & Hr & Hir & Hat & Hmin); [lia | lia | |].
      * exists j. split; [|assumption].
        destruct (Z.eq_dec i j) as [->|]; [congruence | lia].
      * exists r. repeat split; [assumption | lia | assumption |].
        intros j' Hj'. destruct (Z.eq_dec i j') as [<-|].
        -- congruence.
        -- apply Hmin. lia.
Qed.

(** A list of 12 entries is indexed by 0, ..., 11. *)
Ltac enum12 i H :=
  let C := fresh in
  assert (C : i = 0 \/ i = 1 \/ i = 2 \/ i = 3 \/ i = 4 \/ i = 5 \/ i = 6 \/
              i = 7 \/ i = 8 \/ i = 9 \/ i = 10 \/ i = 11) by lia;
  clear H;
  destruct C as [-> | [-> | [-> | [-> | [-> | [-> | [-> | [-> | [-> |
                [-> | [-> | ->]]]]]]]]]]].

Lemma table_length (alt : bool) : Z.of_nat (List.length (table alt)) = 12.
Proof. destruct alt; reflexivity. Qed.

Lemma table_round_trip (alt : bool) (i : Z) (x : string) :
  at_ (table alt) i = Ret x -> getNoteIndex (table alt) x = Ret i.
Proof.
  intros H. pose proof H as Hr. apply at_nth_error in Hr.
  destruct Hr as [Hr _]. rewrite table_length in Hr.
  destruct alt; enum12 i Hr; cbn in H; injection H as <-; reflexivity.
Qed.

(** X4: [getNoteIndex] returns the first position at which the table holds
    the normalised note, for every table that holds it; and on each of the
    two tables of the program, looking up the entry at position [i] gives
    [i] back. *)
Theorem getNoteIndex_first_occurrence (chromatic : list string)
    (note : string) :
  In (formatNote note) chromatic ->
  (exists i, getNoteIndex chromatic note = Ret i /\
             at_ chromatic i = Ret (formatNote note) /\
             forall j, 0 <= j < i ->
                       at_ chromatic j <> Ret (formatNote note)) /\
  (forall alt i x,
      at_ (table alt) i = Ret x -> getNoteIndex (table alt) x = Ret i).
Proof.
  intros Hin. split; [|exact table_round_trip].
  unfold getNoteIndex.
  destruct (getNoteIndex_loop_first chromatic (formatNote note)
              (List.length chromatic) 0) as (r & Hr & _ & Hat & Hmin).
  - lia.
  - lia.
  - apply In_nth_error in Hin. destruct Hin as (n & Hn).
    exists (Z.of_nat n). split; [lia|]. apply at_nth_error.
    rewrite Nat2Z.id. split; [|assumption].
    assert (n < List.length chromatic)%nat
      by (apply nth_error_Some; congruence). lia.
  - exists r. auto.
Qed.

Lemma getNoteIndex_first_occurrence_witness :
  getNoteIndex ["c"; "a"; "b"; "a"] " A " = Ret 1.
Proof.
  destruct (getNoteIndex_first_occurrence ["c"; "a"; "b"; "a"] " A ")
    as ((i & Hi & Hat & Hmin) & _).
  - vm_compute. tauto.
  - rewrite Hi. f_equal.
    apply at_nth_error in Hat. destruct Hat as [Hr _]. cbn in Hr.
    destruct (Z.eq_dec i 1) as [->|Hne]; [reflexivity|]. exfalso.
    apply (Hmin 1).
    + assert (i <> 0); [|lia]. intros ->. vm_compute in Hi. discriminate.
    + reflexivity.
Defined.

(** ** Transposing a note *)

(** A sum that fits in an [int] is held exactly. *)
Lemma to_int_fits (x : Z) : INT_MIN <= x <= INT_MAX -> to_int x = x.
Proof.
  unfold to_int, INT_MIN, INT_MAX. intros H.
  rewrite Z.mod_small by lia. lia.
Qed.

Ltac int_range := unfold INT_MIN, INT_MAX in *; lia.

(** [transposeNote] looks the note up in the table that [isAltNote] selects
    for it and reads the table that [alt] selects. *)
Lemma transposeNote_index (n : string) (interval : Z) (alt : bool) :
  exists idx,
    0 <= idx < 12 /\
    getNoteIndex (table (isAltNote n)) n = Ret idx /\
    (INT_MIN <= idx + interval <= INT_MAX ->
     transposeNote n interval alt
       = at_ (table alt) (Z.rem (idx + interval) 12)).
Proof.
  destruct (getNoteIndex_total (table (isAltNote n)) n) as (idx & Hidx & Hr).
  rewrite table_length in Hr. exists idx. split; [lia|].
  split; [exact Hidx|]. intros Hfit.
  unfold transposeNote. unfold table in Hidx.
  destruct (isAltNote n), alt; rewrite Hidx; cbn [bind];
    now rewrite to_int_fits.
Qed.

Lemma at_table_total (alt : bool) (m : Z) :
  0 <= m < 12 -> exists r, at_ (table alt) m = Ret r /\ In r (table alt).
Proof.
  intros Hm. destruct (at_in_range (table alt) m) as (r & Hr & Hn).
  { rewrite table_length. lia. }
  exists r. split; [exact Hr|]. eapply nth_error_In; eauto.
Qed.

(** An entry other than "b#" and "e#" is found again at its position, in
    the table that [isAltNote] selects for it. *)
Lemma table_entry_index (alt : bool) (m : Z) (r : string) :
  at_ (table alt) m = Ret r -> r <> "b#" -> r <> "e#" ->
  getNoteIndex (table (isAltNote r)) r = Ret m.
Proof.
  intros H Hb He. pose proof H as Hr. apply at_nth_error in Hr.
  destruct Hr as [Hr _]. rewrite table_length in Hr.
  destruct alt; enum12 m Hr; cbn in H; injection H as <-;
    first [reflexivity | congruence].
Qed.

Lemma rem_12_nonneg (a : Z) : 0 <= a -> Z.rem a 12 = a mod 12.
Proof. intros H. apply Z.rem_mod_nonneg; lia. Qed.

Lemma rem_12_neg (a : Z) : Z.rem a 12 < 0 -> a < 0.
Proof.
  intros H. destruct (Z.lt_ge_cases a 0) as [Ha|Ha]; [exact Ha|].
  pose proof (Z.rem_nonneg a 12 ltac:(lia) Ha). lia.
Qed.

Lemma transposeNote_compose_at (n r : string) (i j : Z) (a1 a2 : bool) :
  0 <= i -> 0 <= j -> i + j <= INT_MAX - 11 ->
  transposeNote n i a1 = Ret r -> r <> "b#" -> r <> "e#" ->
  transposeNote r j a2 = transposeNote n (i + j) a2.
Proof.
  intros Hi Hj Hij Hr Hb He.
  destruct (transposeNote_index n i a1) as (idx & Hidx & Hget & E1).
  destruct (transposeNote_index n (i + j) a2) as (idx' & _ & Hget' & E2).
  rewrite Hget in Hget'. injection Hget' as <-.
  pose proof (Z.mod_pos_bound (idx + i) 12 ltac:(lia)) as Hbound.
  rewrite E1, rem_12_nonneg in Hr by int_range.
  pose proof (table_entry_index _ _ _ Hr Hb He) as Hm.
  destruct (transposeNote_index r j a2) as (m & _ & Hget2 & E3).
  rewrite Hm in Hget2. injection Hget2 as <-.
  rewrite E2, E3 by int_range. f_equal.
  rewrite !rem_12_nonneg by lia.
  rewrite Zplus_mod_idemp_l. f_equal. lia.
Qed.

(** The sum of [transposeNote] does not fit in an [int] when the interval
    is [INT_MAX] and the note is not at position 0: it wraps around to a
    negative number, and [at] throws. *)
Example transposeNote_int_overflow :
  transposeNote "a" INT_MAX false = Raise out_of_range.
Proof. reflexivity. Qed.

(** X5: [transposeNote] looks the note up at a position [idx] below 12.
    For an interval that is not negative, as [getInterval] gives it, and
    such that [idx + interval] fits in an [int], it never throws: it returns
    the entry of the table that [alt] selects, at the position of the note
    plus the interval, modulo 12.  For an interval that is an [int], when
    that sum is negative and not a multiple of 12, the remainder of C++ is
    negative and [at] throws. *)
Theorem transposeNote_in_table (n : string) (interval : Z) (alt : bool) :
  exists idx,
    getNoteIndex (table (isAltNote n)) n = Ret idx /\
    0 <= idx < 12 /\
    (0 <= interval -> idx + interval <= INT_MAX ->
     exists r, transposeNote n interval alt = Ret r /\
               In r (table alt) /\
               at_ (table alt) ((idx + interval) mod 12) = Ret r) /\
    (INT_MIN <= interval -> Z.rem (idx + interval) 12 < 0 ->
     transposeNote n interval alt = Raise out_of_range).
Proof.
  destruct (transposeNote_index n interval alt) as (idx & Hidx & Hget & E).
  exists idx. split; [exact Hget|]. split; [exact Hidx|]. split.
  - intros Hi Hfit. rewrite E, rem_12_nonneg by int_range.
    pose proof (Z.mod_pos_bound (idx + interval) 12 ltac:(lia)) as Hm.
    destruct (at_table_total alt _ Hm) as (r & Hr & Hin).
    exists r. auto.
  - intros Hi Hneg. pose proof (rem_12_neg _ Hneg) as Hsum.
    rewrite E by int_range. unfold at_.
    now replace (Z.rem (idx + interval) 12 <? 0) with true
      by (symmetry; apply Z.ltb_lt; assumption).
Qed.

Lemma transposeNote_in_table_witness :
  (exists r, transposeNote "Eb" 7 true = Ret r /\ In r altNotes) /\
  transposeNote "a" (-2) false = Raise out_of_range.
Proof.
  destruct (transposeNote_in_table "Eb" 7 true) as (i1 & _ & B1 & H1 & _).
  destruct (transposeNote_in_table "a" (-2) false) as (i2 & G2 & _ & _ & H2).
  split.
  - destruct H1 as (r & Hr & Hin & _); [lia | int_range |].
    exists r. auto.
  - apply H2; [int_range|].
    vm_compute in G2. injection G2 as <-. reflexivity.
Defined.

(** X6: transposing by [i] and then by [j] is transposing by [i + j],
    whatever tables the two steps read, for intervals that are not negative
    and small enough for every sum to fit in an [int], unless the first
    step returns "b#" or "e#" - the two entries that [isAltNote] does not
    list and that the second step would look up in the wrong table. *)
Theorem transposeNote_compose (n r : string) (i j : Z) (a1 a2 : bool) :
  0 <= i -> 0 <= j -> i + j <= INT_MAX - 11 ->
  transposeNote n i a1 = Ret r -> r <> "b#" -> r <> "e#" ->
  transposeNote r j a2 = transposeNote n (i + j) a2.
Proof. apply transposeNote_compose_at. Qed.

Lemma transposeNote_compose_witness :
  transposeNote "eb" 4 true = transposeNote "C" (3 + 4) true.
Proof.
  apply (transposeNote_compose "C" "eb" 3 4 false true);
    [lia | lia | unfold INT_MAX; lia | reflexivity | discriminate
    | discriminate].
Defined.

Lemma getInterval_wf (k1 k2 : Key) :
  Key_wf k1 -> Key_wf k2 ->
  0 <= getInterval k1 k2 < 12 /\
  getInterval k1 k2 = (keyIndex k2 - keyIndex k1) mod 12.
Proof.
  unfold Key_wf, getInterval. intros H1 H2.
  destruct (Z.ltb_spec (keyIndex k2 - keyIndex k1) 0) as [H|H].
  - split; [lia|]. apply (Z.mod_unique _ 12 (-1)); lia.
  - split; [lia|]. symmetry. apply Z.mod_small. lia.
Qed.





(** ** More on strings *)

Lemma length_append (s t : string) :
  String.length (s ++ t) = (String.length s + String.length t)%nat.
Proof. induction s as [|c s IH]; cbn; [reflexivity|]. now rewrite IH. Qed.

Lemma append_assoc (s t u : string) : (s ++ t) ++ u = s ++ t ++ u.
Proof. induction s as [|c s IH]; cbn; [reflexivity|]. now rewrite IH. Qed.

Lemma take_app_length (s t : string) : take (String.length s) (s ++ t) = s.
Proof. induction s as [|c s IH]; cbn; [now destruct t|]. now rewrite IH. Qed.

Lemma drop_app_length (s t : string) : drop (String.length s) (s ++ t) = t.
Proof. induction s as [|c s IH]; cbn; [reflexivity|]. exact IH. Qed.

Lemma drop_app_le (n : nat) (s t : string) :
  (n <= String.length s)%nat -> drop n (s ++ t) = drop n s ++ t.
Proof.
  revert s. induction n as [|n IH]; intros s H; [reflexivity|].
  destruct s as [|c s]; cbn in *; [lia|]. apply IH. lia.
Qed.

Lemma take_app_le (n : nat) (s t : string) :
  (n <= String.length s)%nat -> take n (s ++ t) = take n s.
Proof.
  revert s. induction n as [|n IH]; intros s H; [reflexivity|].
  destruct s as [|c s]; cbn in *; [lia|]. rewrite IH by lia. reflexivity.
Qed.

Lemma drop_drop (n m : nat) (s : string) :
  drop n (drop m s) = drop (m + n) s.
Proof.
  revert s. induction m as [|m IH]; intros s; [reflexivity|].
  destruct s as [|c s]; cbn; [now destruct n|]. apply IH.
Qed.

Lemma prefix_append (w s : string) : prefix w (w ++ s) = true.
Proof.
  induction w as [|c w IH]; [now destruct s|].
  change (prefix (String c w) (String c w ++ s))
    with (if ascii_dec c c then prefix w (w ++ s) else false).
  destruct (ascii_dec c c); [exact IH | congruence].
Qed.

(** ** The slash of a slash chord *)

Lemma prefix_slash (c : ascii) (s : string) :
  prefix "/" (String c s) = Ascii.eqb c "/".
Proof.
  change (prefix "/" (String c s))
    with (if ascii_dec "/" c then prefix "" s else false).
  destruct (ascii_dec "/" c) as [<-|Hne].
  - now destruct s.
  - symmetry. apply Ascii.eqb_neq. congruence.
Qed.

(** [find("/")] and [find_first_of("/")] are the same search. *)
Lemma find_first_of_from_slash (s : string) (i : Z) :
  find_first_of_from s "/" i =
  match find_first "/" s with
  | Some n => i + Z.of_nat n
  | None => npos
  end.
Proof.
  revert i. induction s as [|c s IH]; intros i; [reflexivity|].
  cbn [find_first_of_from find_first mem_char]. rewrite prefix_slash.
  rewrite orb_false_r. destruct (Ascii.eqb c "/").
  - f_equal. lia.
  - rewrite IH. destruct (find_first "/" s) as [n|]; cbn; [lia | reflexivity].
Qed.

Lemma find_slash_0 (s : string) :
  find s "/" 0 =
  match find_first "/" s with
  | Some n => Z.of_nat n
  | None => npos
  end.
Proof.
  unfold find. pose proof (size_nonneg s).
  replace (0 <? 0) with false by reflexivity.
  replace (size s <? 0) with false by (symmetry; apply Z.ltb_ge; lia).
  cbn [orb Z.to_nat drop]. now destruct (find_first "/" s).
Qed.

(** The first slash splits the word, and nothing before it is a slash. *)
Lemma find_first_slash_split (s : string) (n : nat) :
  find_first "/" s = Some n <->
  exists pre post,
    s = pre ++ "/" ++ post /\ String.length pre = n /\
    mem_char "/" pre = false.
Proof.
  revert n. induction s as [|c s IH]; intros n.
  - split; [discriminate|]. intros (pre & post & H & _).
    destruct pre; discriminate.
  - cbn [find_first]. rewrite prefix_slash.
    destruct (Ascii.eqb_spec c "/") as [->|Hc].
    + split.
      * intros [= <-]. exists "", s. auto.
      * intros (pre & post & H & Hn & Hm). destruct pre as [|d pre].
        -- cbn in Hn. now subst.
        -- cbn in H. injection H as Hd _. subst d.
           cbn [mem_char] in Hm. rewrite Ascii.eqb_refl in Hm. discriminate.
    + split.
      * destruct (find_first "/" s) as [m|] eqn:E; [|discriminate].
        intros [= <-]. destruct (proj1 (IH m) eq_refl)
          as (pre & post & -> & Hn & Hm).
        exists (String c pre), post. cbn [append String.length mem_char].
        repeat split; [now f_equal|].
        rewrite Hm, orb_false_r. apply Ascii.eqb_neq. congruence.
      * intros (pre & post & H & Hn & Hm). destruct pre as [|d pre].
        -- cbn in H. injection H as Hd _. congruence.
        -- cbn in H. injection H as Hd Hs. subst d s.
           cbn [String.length] in Hn. cbn [mem_char] in Hm.
           apply orb_false_iff in Hm. destruct Hm as [_ Hm].
           destruct n as [|n]; [discriminate|].
           rewrite (proj2 (IH n)); [reflexivity|].
           exists pre, post. repeat split; [lia | assumption].
Qed.

Lemma find_last_of_from_none (s : string) (i last : Z) :
  mem_char "/" s = false -> find_last_of_from s "/" i last = last.
Proof.
  revert i last. induction s as [|c s IH]; intros i last H; [reflexivity|].
  cbn [mem_char] in H. apply orb_false_iff in H. destruct H as [Hc Hs].
  cbn [find_last_of_from mem_char]. rewrite orb_false_r.
  rewrite Ascii.eqb_sym in Hc. rewrite Hc. now apply IH.
Qed.

(** The last slash, when the part after it is known. *)
Lemma find_last_of_from_split (pre post : string) (i last : Z) :
  mem_char "/" post = false ->
  find_last_of_from (pre ++ "/" ++ post) "/" i last
    = i + Z.of_nat (String.length pre).
Proof.
  intros Hp. revert i last. induction pre as [|c pre IH]; intros i last.
  - cbn. rewrite find_last_of_from_none by assumption. lia.
  - cbn [append find_last_of_from String.length]. rewrite IH. lia.
Qed.

(** A word with a slash has a last one. *)
Lemma last_slash (s : string) :
  mem_char "/" s = true ->
  exists p q, s = p ++ "/" ++ q /\ mem_char "/" q = false.
Proof.
  induction s as [|c s IH]; [discriminate|]. cbn [mem_char]. intros H.
  destruct (mem_char "/" s) eqn:E.
  - destruct (IH eq_refl) as (p & q & -> & Hq).
    exists (String c p), q. split; [reflexivity | assumption].
  - rewrite orb_false_r in H. apply Ascii.eqb_eq in H. subst c.
    exists "", s. split; [reflexivity | assumption].
Qed.

(** Lengths of concatenations, for [lia]. *)
Ltac len :=
  unfold size in *; rewrite ?length_append in *;
  cbn [append String.length] in *; rewrite ?length_append in *; lia.

Lemma validSlashChord_split (w : string) :
  validSlashChord w = Ret true <->
  exists pre post,
    w = pre ++ "/" ++ post /\
    mem_char "/" pre = false /\ mem_char "/" post = false /\
    post <> "" /\
    validChord pre = Ret true /\ validNote post = true.
Proof.
  unfold validSlashChord, validSlashChord_with.
  rewrite find_slash_0. unfold find_first_of, find_last_of.
  rewrite find_first_of_from_slash. split.
  - destruct (find_first "/" w) as [n|] eqn:E; [|discriminate].
    apply find_first_slash_split in E.
    destruct E as (pre & post & -> & <- & Hpre).
    replace (Z.of_nat (String.length pre) =? npos) with false
      by (symmetry; apply Z.eqb_neq; unfold npos; lia).
    destruct (mem_char "/" post) eqn:Hpost.
    { destruct (last_slash post Hpost) as (p & q & -> & Hq).
      rewrite <- (append_assoc pre "/" (p ++ "/" ++ q)).
      rewrite <- (append_assoc (pre ++ "/") p ("/" ++ q)).
      rewrite (find_last_of_from_split ((pre ++ "/") ++ p) q) by assumption.
      destruct (Z.eqb_spec (0 + Z.of_nat (String.length pre))
                  (0 + Z.of_nat (String.length ((pre ++ "/") ++ p))))
        as [Heq|_]; [|discriminate].
      exfalso. revert Heq. len. }
    rewrite (find_last_of_from_split pre post) by assumption.
    rewrite Z.eqb_refl. cbn [negb].
    destruct (Z.eqb_spec (Z.of_nat (String.length pre))
                (size (pre ++ "/" ++ post) - 1)) as [_|Hlast];
      [discriminate|].
    rewrite substr_0 by lia. rewrite Nat2Z.id, take_app_length.
    rewrite substr_npos
      by len.
    replace (Z.to_nat (Z.of_nat (String.length pre) + 1))
      with (String.length (pre ++ "/"))
      by len.
    rewrite <- (append_assoc pre "/" post), drop_app_length.
    cbn [bind]. destruct (validChord pre) as [[] | e] eqn:Hv;
      cbn [bind andb]; try discriminate.
    destruct (validNote post) eqn:Hn; [|discriminate].
    intros _. exists pre, post. repeat split; auto.
    + now rewrite append_assoc.
    + intros ->. apply Hlast. len.
  - intros (pre & post & -> & Hpre & Hpost & Hne & Hv & Hn).
    rewrite (proj2 (find_first_slash_split (pre ++ "/" ++ post)
                      (String.length pre)))
      by (exists pre, post; auto).
    replace (Z.of_nat (String.length pre) =? npos) with false
      by (symmetry; apply Z.eqb_neq; unfold npos; lia).
    rewrite (find_last_of_from_split pre post) by assumption.
    rewrite Z.eqb_refl. cbn [negb].
    assert (0 < String.length post)%nat
      by (destruct post; [congruence | cbn; lia]).
    replace (Z.of_nat (String.length pre) =? size (pre ++ "/" ++ post) - 1)
      with false
      by (symmetry; apply Z.eqb_neq; len).
    rewrite substr_0 by lia. rewrite Nat2Z.id, take_app_length.
    rewrite substr_npos
      by len.
    replace (Z.to_nat (Z.of_nat (String.length pre) + 1))
      with (String.length (pre ++ "/"))
      by len.
    rewrite <- (append_assoc pre "/" post), drop_app_length.
    cbn [bind]. rewrite Hv. cbn [bind]. now rewrite Hn.
Qed.

(** X8: [validSlashChord] accepts a word exactly when the word is a part
    accepted by [validChord], one slash, and a part that is not empty and
    is accepted by [validNote], with no other slash on either side. *)
Theorem validSlashChord_iff (w : string) :
  validSlashChord w = Ret true <->
  exists pre post,
    w = pre ++ "/" ++ post /\
    mem_char "/" pre = false /\ mem_char "/" post = false /\
    post <> "" /\
    validChord pre = Ret true /\ validNote post = true.
Proof. apply validSlashChord_split. Qed.

Lemma validSlashChord_iff_witness : validSlashChord "Am7/G" = Ret true.
Proof.
  apply (validSlashChord_iff "Am7/G"). exists "Am7", "G".
  repeat split; try reflexivity. discriminate.
Defined.

(** ** Transposing a chord *)

Lemma substr_in_range (s : string) (pos count : Z) :
  0 <= pos <= size s -> 0 <= count ->
  substr s pos count = Ret (take (Z.to_nat count) (drop (Z.to_nat pos) s)).
Proof.
  intros Hp Hc. unfold substr.
  replace (pos <? 0) with false by (symmetry; apply Z.ltb_ge; lia).
  replace (size s <? pos) with false by (symmetry; apply Z.ltb_ge; lia).
  replace (count <? 0) with false by (symmetry; apply Z.ltb_ge; lia).
  reflexivity.
Qed.

Lemma transposeNote_total (n : string) (interval : Z) (alt : bool) :
  0 <= interval < 12 ->
  exists r, transposeNote n interval alt = Ret r /\ In r (table alt).
Proof.
  intros Hi.
  destruct (transposeNote_index n interval alt) as (idx & Hidx & _ & E).
  rewrite E, rem_12_nonneg by int_range. apply at_table_total.
  apply Z.mod_pos_bound. lia.
Qed.

(** What [transposeChord] returns, for keys whose indices are table
    positions: never an error. *)
Lemma transposeChord_cases (chord : string) (k1 k2 : Key) :
  Key_wf k1 -> Key_wf k2 ->
  exists n r,
    (n = 1 \/ n = 2)%nat /\
    getRoot chord = Ret (take n chord) /\
    transposeNote (take n chord) (getInterval k1 k2)
      (isAltNote (getKeyName k2)) = Ret r /\
    In r (table (isAltNote (getKeyName k2))) /\
    ((validSlashChord chord = Ret false /\
      transposeChord chord k1 k2
        = Ret (transform_first toupper r ++ drop n chord)) \/
     (validSlashChord chord = Ret true /\
      exists pre post b,
        chord = pre ++ "/" ++ post /\
        mem_char "/" pre = false /\ mem_char "/" post = false /\
        validChord pre = Ret true /\ validNote post = true /\
        transposeNote post (getInterval k1 k2)
          (isAltNote (getKeyName k2)) = Ret b /\
        In b (table (isAltNote (getKeyName k2))) /\
        transposeChord chord k1 k2
          = Ret (transform_first toupper r ++
                 take (String.length pre) (drop n chord) ++
                 transform_first toupper b))).
Proof.
  intros W1 W2. destruct (getInterval_wf k1 k2 W1 W2) as [Hi _].
  destruct (getRoot_take chord) as (n & Hn & Hroot).
  destruct (transposeNote_total (take n chord) (getInterval k1 k2)
              (isAltNote (getKeyName k2))) as (r & Hr & Hin); [lia|].
  exists n, r. repeat split; try assumption.
  unfold transposeChord. rewrite Hroot. cbn [bind]. rewrite Hr. cbn [bind].
  destruct (validSlashChord_total chord) as ([] & Hvs); rewrite Hvs;
    cbn [bind].
  - right. split; [reflexivity|].
    apply validSlashChord_split in Hvs.
    destruct Hvs as (pre & post & -> & Hpre & Hpost & Hne & Hv & Hvn).
    destruct (transposeNote_total post (getInterval k1 k2)
                (isAltNote (getKeyName k2))) as (b & Hb & Hbin); [lia|].
    exists pre, post, b. repeat split; try assumption.
    rewrite find_slash_0.
    rewrite (proj2 (find_first_slash_split (pre ++ "/" ++ post)
                      (String.length pre)))
      by (exists pre, post; auto).
    assert (Hlen : (String.length (take n (pre ++ "/" ++ post))
                    <= String.length (pre ++ "/" ++ post))%nat)
      by (rewrite length_take; lia).
    rewrite substr_in_range by (unfold size; lia).
    rewrite substr_npos by len.
    cbn [bind]. unfold size. rewrite !Nat2Z.id, drop_length_take.
    replace (Z.to_nat (Z.of_nat (String.length pre) + 1))
      with (String.length (pre ++ "/")) by len.
    assert (Hd : drop (String.length (pre ++ "/")) (pre ++ "/" ++ post)
                 = post)
      by (rewrite <- (append_assoc pre "/" post); apply drop_app_length).
    rewrite Hd, Hb. reflexivity.
  - left. split; [reflexivity|].
    now rewrite substr_after_take.
Qed.

Lemma take_up_to_char (pre post : string) (d : ascii) :
  take (S (String.length pre)) (pre ++ String d post) = pre ++ String d "".
Proof.
  induction pre as [|e pre IH]; cbn [append String.length take];
    [reflexivity | f_equal; exact IH].
Qed.

Lemma take_middle (c : ascii) (pre post : string) :
  take (String.length (String c pre)) (drop 1 (String c pre ++ "/" ++ post))
  = pre ++ "/".
Proof. apply take_up_to_char. Qed.

(** X9: for keys whose indices are table positions [transposeChord] never
    throws.  For a word that is not a slash chord it returns the transposed
    root, capitalised, followed by the rest of the word after the root,
    unchanged.  For a slash chord it returns the transposed root, as many
    characters after the root as precede the slash, and the transposed bass
    note; when the root is one character this is the text between the root
    and the slash, the slash, and the new bass note. *)
Theorem transposeChord_shape (chord : string) (k1 k2 : Key) :
  Key_wf k1 -> Key_wf k2 ->
  exists root r,
    getRoot chord = Ret root /\
    transposeNote root (getInterval k1 k2) (isAltNote (getKeyName k2))
      = Ret r /\
    In r (table (isAltNote (getKeyName k2))) /\
    (exists out, transposeChord chord k1 k2 = Ret out) /\
    (validSlashChord chord = Ret false ->
     transposeChord chord k1 k2
       = Ret (transform_first toupper r ++
              drop (String.length root) chord)) /\
    (validSlashChord chord = Ret true ->
     exists pre post b,
       chord = pre ++ "/" ++ post /\
       validChord pre = Ret true /\ validNote post = true /\
       transposeNote post (getInterval k1 k2) (isAltNote (getKeyName k2))
         = Ret b /\
       In b (table (isAltNote (getKeyName k2))) /\
       transposeChord chord k1 k2
         = Ret (transform_first toupper r ++
                take (String.length pre) (drop (String.length root) chord)
                ++ transform_first toupper b) /\
       (String.length root = 1%nat ->
        transposeChord chord k1 k2
          = Ret (transform_first toupper r ++ drop 1 pre ++ "/" ++
                 transform_first toupper b))).
Proof.
  intros W1 W2.
  destruct (transposeChord_cases chord k1 k2 W1 W2)
    as (n & r & Hn & Hroot & Hr & Hin & Hcases).
  exists (take n chord), r. repeat split; try assumption.
  - destruct Hcases as [[_ H] | [_ (pre & post & b & H)]]; [eauto|].
    decompose [and] H. eauto.
  - intros Hvs. destruct Hcases as [[_ H] | [H _]]; [|congruence].
    now rewrite drop_length_take.
  - intros Hvs. destruct Hcases as [[H _] | [_ H]]; [congruence|].
    destruct H as (pre & post & b & Hc & Hpre & Hpost & Hv & Hvn & Hb
                   & Hbin & Hout).
    exists pre, post, b. rewrite drop_length_take.
    repeat split; try assumption.
    intros Hlen. rewrite Hout. do 2 f_equal.
    assert (n = 1%nat) as ->.
    { rewrite length_take in Hlen.
      destruct Hn as [-> | ->]; [reflexivity|].
      subst chord. destruct pre as [|c pre]; [discriminate Hv|].
      revert Hlen. len. }
    destruct pre as [|c pre]; [discriminate Hv|].
    subst chord. rewrite take_middle. cbn [drop].
    now rewrite append_assoc.
Qed.

Lemma transposeChord_shape_witness :
  transposeChord "Bbmaj7" (mkKey "a" 1 false) (mkKey "c" 4 false)
  = Ret "Dbmaj7".
Proof.
  destruct (transposeChord_shape "Bbmaj7"
              (mkKey "a" 1 false) (mkKey "c" 4 false))
    as (root & r & Hroot & Hr & _ & _ & H & _);
    [unfold Key_wf; cbn; lia ..|].
  rewrite H by reflexivity.
  vm_compute in Hroot. injection Hroot as <-.
  vm_compute in Hr. injection Hr as <-. reflexivity.
Defined.

(** ** Reading words from a stream *)

Lemma all_space_word_end (s : string) : all_space s = true -> word_end s = true.
Proof.
  destruct s as [|c s]; [reflexivity|]. cbn. intros H.
  apply andb_true_iff in H. tauto.
Qed.

Lemma skipws_split (u : string) :
  exists ws, u = ws ++ skipws u /\ all_space ws = true.
Proof.
  induction u as [|c u IH]; [now exists ""|]. cbn [skipws].
  destruct (isspace c) eqn:Ec.
  - destruct IH as (ws & Hu & Hws). exists (String c ws). cbn.
    rewrite Ec, Hws. split; [now f_equal | reflexivity].
  - now exists "".
Qed.

Lemma skipws_head (u : string) (c : ascii) (s : string) :
  skipws u = String c s -> isspace c = false.
Proof.
  induction u as [|d u IH]; cbn [skipws]; [discriminate|].
  destruct (isspace d) eqn:Ed; [exact IH|]. now intros [= <- _].
Qed.

(** An extraction either fails and leaves [word] alone, or reads the next
    word of a good stream. *)
Lemma extract_cases (st : istream) (word : string) :
  (failbit (fst (extract st word)) = true /\
   snd (extract st word) = word /\
   (good st = false \/ all_space (unread st) = true)) \/
  (good st = true /\
   exists ws w r,
     unread st = ws ++ w ++ r /\
     all_space ws = true /\ no_space w = true /\ w <> "" /\
     word_end r = true /\
     extract st word
       = ({| unread := r;
             eofbit := match r with EmptyString => true | _ => false end;
             failbit := false |}, w)).
Proof.
  unfold extract. destruct (good st) eqn:Hg; [|left; auto].
  destruct (skipws_split (unread st)) as (ws & Hu & Hws).
  destruct (skipws (unread st)) as [|c s] eqn:Es.
  - left. repeat split. right. rewrite Hu, append_empty_r. exact Hws.
  - right. split; [reflexivity|].
    pose proof (skipws_head _ _ _ Es) as Hc.
    pose proof (read_word_spec (String c s)) as (Hw & Hr & Hs).
    destruct (read_word (String c s)) as [w r] eqn:Er. cbn [fst snd] in *.
    exists ws, w, r. repeat split; try assumption.
    + now rewrite Hu, Hs.
    + intros ->. cbn [read_word] in Er. rewrite Hc in Er.
      destruct (read_word s). discriminate.
Qed.

Lemma extract_word (st : istream) (word ws w rest : string) :
  good st = true -> unread st = ws ++ w ++ rest ->
  all_space ws = true -> no_space w = true -> w <> "" ->
  word_end rest = true ->
  extract st word
    = ({| unread := rest;
          eofbit := match rest with EmptyString => true | _ => false end;
          failbit := false |}, w).
Proof.
  intros Hg Hu Hws Hw Hne Hrest. unfold extract. rewrite Hg, Hu.
  rewrite skipws_all_space, skipws_word by assumption.
  destruct (w ++ rest) as [|c s] eqn:E.
  - destruct w; [congruence | discriminate E].
  - rewrite <- E. now rewrite read_word_word.
Qed.

Lemma extract_nothing (st : istream) (word : string) :
  good st = false \/ all_space (unread st) = true ->
  failbit (fst (extract st word)) = true /\ snd (extract st word) = word.
Proof.
  intros H. unfold extract. destruct (good st); [|auto].
  destruct H as [H|H]; [discriminate|].
  now rewrite skipws_only_space.
Qed.

(** ** Chord lines *)

Lemma validChord_empty : validChord "" = Ret false.
Proof. reflexivity. Qed.

(** X10: how [isChordLine] classifies a line.  A line without a word is
    not a chord line.  A line of one word is a chord line exactly when that
    word is a valid chord: the second extraction fails and the first word
    is tested again.  A line of two words or more is a chord line exactly
    when its first two words are both valid chords. *)
Theorem isChordLine_by_words (line ws w1 gap w2 rest : string) :
  (all_space line = true -> isChordLine line = Ret false) /\
  (all_space ws = true -> no_space w1 = true -> w1 <> "" ->
   all_space gap = true ->
   line = ws ++ w1 ++ gap -> isChordLine line = validChord w1) /\
  (all_space ws = true -> no_space w1 = true -> w1 <> "" ->
   all_space gap = true -> gap <> "" ->
   no_space w2 = true -> w2 <> "" -> word_end rest = true ->
   line = ws ++ w1 ++ gap ++ w2 ++ rest ->
   exists b1 b2,
     validChord w1 = Ret b1 /\ validChord w2 = Ret b2 /\
     isChordLine line = Ret (b1 && b2)).
Proof.
  split; [|split].
  - intros H. unfold isChordLine.
    destruct (extract_nothing (stringstream line) "" (or_intror H))
      as [_ Hw].
    destruct (extract (stringstream line) "") as [st w]. cbn in Hw.
    subst w. reflexivity.
  - intros Hws Hw1 Hne Hgap ->. unfold isChordLine.
    rewrite (extract_word _ "" ws w1 gap)
      by (auto using all_space_word_end).
    destruct (validChord_total w1) as (b1 & Hb1). rewrite Hb1. cbn [bind].
    destruct b1; cbn [negb]; [|reflexivity].
    match goal with |- context [extract ?st w1] =>
      destruct (extract_nothing st w1) as [_ Hw] end.
    { destruct gap; [left; reflexivity | right; exact Hgap]. }
    match goal with |- context [extract ?st w1] =>
      destruct (extract st w1) as [st' w'] end.
    cbn in Hw. subst w'. rewrite Hb1. reflexivity.
  - intros Hws Hw1 Hne1 Hgap Hgne Hw2 Hne2 Hrest ->. unfold isChordLine.
    assert (Hend : word_end (gap ++ w2 ++ rest) = true).
    { destruct gap as [|c gap]; [congruence|]. cbn in *.
      apply andb_true_iff in Hgap. tauto. }
    rewrite (extract_word _ "" ws w1 (gap ++ w2 ++ rest)) by auto.
    destruct (validChord_total w1) as (b1 & Hb1).
    destruct (validChord_total w2) as (b2 & Hb2).
    exists b1, b2. split; [exact Hb1|]. split; [exact Hb2|].
    rewrite Hb1. cbn [bind]. destruct b1; cbn [negb andb]; [|reflexivity].
    rewrite (extract_word _ w1 gap w2 rest); auto.
    + rewrite Hb2. cbn [bind]. now destruct b2.
    + destruct gap; [congruence | reflexivity].
Qed.

Lemma isChordLine_by_words_witness :
  isChordLine "  Am7  " = validChord "Am7" /\
  exists b1 b2, isChordLine "A Movie Script Ending" = Ret (b1 && b2).
Proof.
  destruct (isChordLine_by_words "  Am7  " "  " "Am7" "  " "" "")
    as (_ & H1 & _).
  destruct (isChordLine_by_words "A Movie Script Ending"
              "" "A" " " "Movie" " Script Ending") as (_ & _ & H2).
  split.
  - apply H1; reflexivity || discriminate.
  - destruct H2 as (b1 & b2 & _ & _ & H);
      try reflexivity; try discriminate.
    exists b1, b2. exact H.
Defined.

(** ** Lines *)

Lemma no_newline_append (s t : string) :
  no_newline (s ++ t) = no_newline s && no_newline t.
Proof.
  induction s as [|c s IH]; cbn [append no_newline]; [reflexivity|].
  now rewrite IH, andb_assoc.
Qed.

Lemma no_newline_take (n : nat) (s : string) :
  no_newline s = true -> no_newline (take n s) = true.
Proof.
  revert s. induction n as [|n IH]; intros [|c s]; cbn [take no_newline];
    auto.
  intros H. apply andb_true_iff in H. destruct H as [Hc Hs].
  now rewrite Hc, IH.
Qed.

Lemma no_newline_drop (n : nat) (s : string) :
  no_newline s = true -> no_newline (drop n s) = true.
Proof.
  revert s. induction n as [|n IH]; intros [|c s]; cbn [drop no_newline];
    auto.
  intros H. apply andb_true_iff in H. destruct H as [Hc Hs]. auto.
Qed.

Lemma not_space_not_newline (c : ascii) :
  isspace c = false -> Ascii.eqb c newline = false.
Proof.
  intros H. apply Ascii.eqb_neq. intros ->. discriminate H.
Qed.

Lemma no_space_no_newline (w : string) :
  no_space w = true -> no_newline w = true.
Proof.
  induction w as [|c w IH]; cbn [no_space no_newline]; [reflexivity|].
  intros H. apply andb_true_iff in H. destruct H as [Hc Hw].
  apply negb_true_iff in Hc. rewrite (not_space_not_newline c Hc).
  cbn. auto.
Qed.

Lemma table_no_newline (alt : bool) (r : string) :
  In r (table alt) -> no_newline (transform_first toupper r) = true.
Proof.
  intros H. destruct alt; unfold table, notes, altNotes in H; each_entry H.
Qed.

Lemma transposeChord_no_newline (chord : string) (k1 k2 : Key) :
  Key_wf k1 -> Key_wf k2 -> no_newline chord = true ->
  exists out, transposeChord chord k1 k2 = Ret out /\ no_newline out = true.
Proof.
  intros W1 W2 Hc.
  destruct (transposeChord_cases chord k1 k2 W1 W2)
    as (n & r & _ & _ & _ & Hin & [[_ H] | [_ H]]).
  - eexists. split; [exact H|]. rewrite no_newline_append.
    rewrite (table_no_newline _ _ Hin). now apply no_newline_drop.
  - destruct H as (pre & post & b & _ & _ & _ & _ & _ & _ & Hbin & H).
    eexists. split; [exact H|]. rewrite !no_newline_append.
    rewrite (table_no_newline _ _ Hin), (table_no_newline _ _ Hbin).
    rewrite no_newline_take by now apply no_newline_drop. reflexivity.
Qed.

(** ** Finding a word again in its line *)

Lemma find_first_occurrence (w B X : string) :
  exists n, find_first w (X ++ w ++ B) = Some n /\
            (n <= String.length X)%nat.
Proof.
  induction X as [|c X IH].
  - exists O. cbn [append]. split; [|lia].
    destruct (w ++ B) as [|d s] eqn:E.
    + assert (w = "") as -> by (destruct w; [reflexivity | discriminate E]).
      reflexivity.
    + cbn [find_first]. rewrite <- E, prefix_append. reflexivity.
  - cbn [append find_first].
    destruct (prefix w (String c (X ++ w ++ B))).
    + exists O. split; [reflexivity | lia].
    + destruct IH as (n & -> & Hn). exists (S n). cbn. split; [reflexivity|].
      lia.
Qed.

(** From a cursor that is not past an occurrence of the word, [find]
    returns a position between the cursor and that occurrence. *)
Lemma find_occurrence (A w B : string) (pos : Z) :
  0 <= pos <= size A ->
  pos <= find (A ++ w ++ B) w pos <= size A.
Proof.
  intros Hp. unfold find.
  replace (pos <? 0) with false by (symmetry; apply Z.ltb_ge; lia).
  replace (size (A ++ w ++ B) <? pos) with false
    by (symmetry; apply Z.ltb_ge; len).
  cbn [orb]. rewrite drop_app_le by (unfold size in Hp; lia).
  destruct (find_first_occurrence w B (drop (Z.to_nat pos) A))
    as (n & -> & Hn).
  rewrite length_drop in Hn. unfold size in *. lia.
Qed.

Lemma replace_in_range (s : string) (pos len : Z) (str : string) :
  0 <= pos <= size s -> 0 <= len ->
  replace s pos len str
    = Ret (take (Z.to_nat pos) s ++ str ++
           drop (Z.to_nat len) (drop (Z.to_nat pos) s)).
Proof.
  intros Hp Hl. unfold replace.
  replace (pos <? 0) with false by (symmetry; apply Z.ltb_ge; lia).
  replace (size s <? pos) with false by (symmetry; apply Z.ltb_ge; lia).
  replace (len <? 0) with false by (symmetry; apply Z.ltb_ge; lia).
  reflexivity.
Qed.

(** The loop over the words of a chord line: every word is found again at
    or after the cursor, so that [replace] stays within the line, and the
    loop ends before its budget does. *)
Lemma transposeTab_words_total (k1 k2 : Key) :
  Key_wf k1 -> Key_wf k2 ->
  forall (fuel : nat) (lnStream : istream) (line word : string) (strInd : Z),
    (String.length (unread lnStream) < fuel)%nat ->
    (good lnStream = true ->
     exists P, line = P ++ unread lnStream /\ 0 <= strInd <= size P) ->
    exists line' word',
      transposeTab_words fuel lnStream line word strInd k1 k2
        = Ret (line', word') /\
      (no_newline line = true -> no_newline line' = true).
Proof.
  intros W1 W2. induction fuel as [|fuel IH];
    intros lnStream line word strInd Hfuel Hinv; [lia|].
  cbn [transposeTab_words].
  destruct (extract_cases lnStream word)
    as [(Hfail & _) | (Hg & ws & w & r & Hu & Hws & Hw & Hne & Hr & Hex)].
  - destruct (extract lnStream word) as [st' word']. cbn [fst] in Hfail.
    rewrite Hfail. eauto.
  - rewrite Hex. cbn [failbit].
    destruct (Hinv Hg) as (P & Hline & Hcur).
    assert (Hr_fuel : (String.length r < fuel)%nat).
    { rewrite Hu in Hfuel. destruct w; [congruence|]. revert Hfuel. len. }
    destruct (validChord_total w) as ([] & Hv); rewrite Hv; cbn [bind].
    + (* the word is a chord: it is replaced *)
      set (A := P ++ ws).
      assert (HlineA : line = A ++ w ++ r).
      { unfold A. now rewrite Hline, Hu, append_assoc. }
      assert (Hq : strInd <= find line w strInd <= size A).
      { rewrite HlineA. apply find_occurrence. unfold A. len. }
      set (q := find line w strInd) in *.
      destruct (transposeChord_no_newline w k1 k2 W1 W2
                  (no_space_no_newline w Hw)) as (newChord & Hnew & Hnl).
      rewrite Hnew. cbn [bind].
      rewrite replace_in_range by (try rewrite HlineA at 1; len).
      cbn [bind]. unfold size at 1. rewrite Nat2Z.id, drop_drop.
      set (line' := take (Z.to_nat q) line ++ newChord ++
                    drop (Z.to_nat q + String.length w) line).
      destruct (IH {| unread := r;
                      eofbit := match r with "" => true | _ => false end;
                      failbit := false |} line' w
                  (strInd + size newChord)) as (l2 & w2 & Hrec & Hnl2).
      * exact Hr_fuel.
      * intros _. cbn [unread].
        exists (take (Z.to_nat q) line ++ newChord ++
                drop (Z.to_nat q + String.length w) (A ++ w)).
        split.
        -- unfold line'. rewrite !append_assoc. do 2 f_equal.
           rewrite HlineA at 1. rewrite <- (append_assoc A w r).
           apply drop_app_le. len.
        -- unfold size. rewrite !length_append, length_take.
           rewrite HlineA. unfold size in *. rewrite !length_append. lia.
      * exists l2, w2. split; [exact Hrec|]. intros Hl. apply Hnl2.
        unfold line'. rewrite !no_newline_append, Hnl.
        rewrite no_newline_take, no_newline_drop by assumption. reflexivity.
    + (* the word is not a chord: the line is left alone *)
      destruct (IH {| unread := r;
                      eofbit := match r with "" => true | _ => false end;
                      failbit := false |} line w strInd)
        as (l2 & w2 & Hrec & Hnl2).
      * exact Hr_fuel.
      * intros _. cbn [unread]. exists (P ++ ws ++ w). split.
        -- now rewrite Hline, Hu, !append_assoc.
        -- len.
      * exists l2, w2. auto.
Qed.

(** ** The loop over the lines *)

Lemma read_line_line (l rest : string) :
  no_newline l = true -> read_line (l ++ endl ++ rest) = (l, rest, true).
Proof.
  induction l as [|c l IH]; cbn [append no_newline read_line].
  - intros _. unfold endl. cbn [append read_line].
    now rewrite Ascii.eqb_refl.
  - intros H. apply andb_true_iff in H. destruct H as [Hc Hl].
    apply negb_true_iff in Hc. rewrite Hc, IH by assumption. reflexivity.
Qed.

Lemma read_line_last (l : string) :
  no_newline l = true -> read_line l = (l, "", false).
Proof.
  induction l as [|c l IH]; cbn [no_newline read_line]; [reflexivity|].
  intros H. apply andb_true_iff in H. destruct H as [Hc Hl].
  apply negb_true_iff in Hc. rewrite Hc, IH by assumption. reflexivity.
Qed.

Lemma getline_line (st : istream) (line l rest : string) :
  good st = true -> unread st = l ++ endl ++ rest -> no_newline l = true ->
  getline st line
    = ({| unread := rest; eofbit := false; failbit := false |}, l).
Proof.
  intros Hg Hu Hl. unfold getline. rewrite Hg, Hu.
  destruct (l ++ endl ++ rest) as [|c s] eqn:E.
  - destruct l; discriminate E.
  - rewrite <- E, read_line_line by assumption. reflexivity.
Qed.

Lemma getline_last (st : istream) (line l : string) :
  good st = true -> unread st = l -> l <> "" -> no_newline l = true ->
  getline st line
    = ({| unread := ""; eofbit := true; failbit := false |}, l).
Proof.
  intros Hg Hu Hne Hl. unfold getline. rewrite Hg, Hu.
  destruct l as [|c s]; [congruence|].
  rewrite read_line_last by assumption. reflexivity.
Qed.

(** Every text is a sequence of lines ended by a newline, and a last line
    that is not. *)
Lemma lines_shape (tab : string) :
  exists ls last,
    tab = unlines ls ++ last /\
    Forall (fun l => no_newline l = true) ls /\ no_newline last = true.
Proof.
  induction tab as [|c tab (ls & last & -> & Hls & Hlast)].
  - exists [], "". auto.
  - destruct (Ascii.eqb_spec c newline) as [->|Hc].
    + exists ("" :: ls), last. repeat split; auto.
    + assert (Hb : negb (Ascii.eqb c newline) = true)
        by (apply negb_true_iff, Ascii.eqb_neq; assumption).
      destruct ls as [|l ls].
      * exists [], (String c last). cbn [unlines append no_newline].
        rewrite Hb. auto.
      * exists (String c l :: ls), last. inversion Hls; subst.
        repeat split; auto. constructor; [|assumption].
        cbn [no_newline]. rewrite Hb. auto.
Qed.

Lemma isChordLine_total (line : string) : exists b, isChordLine line = Ret b.
Proof.
  unfold isChordLine. destruct (extract (stringstream line) "") as [st w].
  destruct (validChord_total w) as ([] & ->); cbn [bind negb]; [|eauto].
  destruct (extract st w) as [st' w'].
  destruct (validChord_total w') as ([] & ->); cbn [bind negb]; eauto.
Qed.

(** What the body of the loop does with one line. *)
Lemma transposeTab_line (k1 k2 : Key) (line word : string) :
  Key_wf k1 -> Key_wf k2 -> no_newline line = true ->
  exists out word',
    (cl <- isChordLine line ;;
     if cl then
       transposeTab_words (S (String.length line)) (stringstream line)
         line word 0 k1 k2
     else Ret (line, word)) = Ret (out, word') /\
    (isChordLine line = Ret false -> out = line) /\
    no_newline out = true.
Proof.
  intros W1 W2 Hl.
  destruct (isChordLine_total line) as ([] & Hcl); rewrite Hcl; cbn [bind].
  - destruct (transposeTab_words_total k1 k2 W1 W2
                (S (String.length line)) (stringstream line) line word 0)
      as (out & word' & Hrec & Hnl).
    + cbn. lia.
    + intros _. exists "". cbn. split; [reflexivity | lia].
    + exists out, word'. repeat split; [assumption | discriminate | auto].
  - exists line, word. auto.
Qed.

Lemma transposeTab_lines_total (k1 k2 : Key) :
  Key_wf k1 -> Key_wf k2 ->
  forall (ls : list string) (last : string) (fuel : nat) (st : istream)
         (line word newTab : string),
    good st = true -> unread st = unlines ls ++ last ->
    Forall (fun l => no_newline l = true) ls -> no_newline last = true ->
    (String.length (unread st) < fuel)%nat ->
    exists outs,
      transposeTab_lines fuel st line word newTab k1 k2
        = Ret (newTab ++ unlines outs) /\
      Forall2 (fun l out => (isChordLine l = Ret false -> out = l) /\
                            no_newline out = true)
        (ls ++ match last with EmptyString => [] | _ => [last] end) outs.
Proof.
  intros W1 W2. induction ls as [|l ls IH];
    intros last fuel st line word newTab Hg Hu Hls Hlast Hfuel.
  - cbn [unlines append] in Hu. destruct fuel as [|fuel]; [lia|].
    cbn [transposeTab_lines]. destruct last as [|c last].
    + exists []. unfold getline. rewrite Hg, Hu. cbn [failbit].
      rewrite append_empty_r. split; [reflexivity | constructor].
    + rewrite (getline_last st line (String c last)); auto; [|discriminate].
      cbn [failbit].
      destruct (transposeTab_line k1 k2 (String c last) word W1 W2 Hlast)
        as (out & word' & Hstep & Hkeep & Hnl).
      destruct (isChordLine (String c last)) as [cl|e] eqn:Hcl;
        [|discriminate Hstep].
      rewrite <- Hcl in Hkeep.
      cbn [bind] in Hstep |- *. rewrite Hstep. cbn [bind].
      destruct fuel as [|fuel]; [rewrite Hu in Hfuel; cbn in Hfuel; lia|].
      cbn [transposeTab_lines getline good eofbit failbit negb andb].
      exists [out]. cbn [unlines app]. rewrite append_empty_r.
      split; [reflexivity|].
      constructor; [split; assumption | constructor].
  - cbn [unlines] in Hu. rewrite !append_assoc in Hu.
    destruct fuel as [|fuel]; [lia|]. cbn [transposeTab_lines].
    inversion Hls as [|? ? Hl Hls']; subst.
    rewrite (getline_line st line l (unlines ls ++ last)) by assumption.
    cbn [failbit].
    destruct (transposeTab_line k1 k2 l word W1 W2 Hl)
      as (out & word' & Hstep & Hkeep & Hnl).
    destruct (isChordLine l) as [cl|e] eqn:Hcl; [|discriminate Hstep].
    rewrite <- Hcl in Hkeep.
    cbn [bind] in Hstep |- *. rewrite Hstep. cbn [bind].
    destruct (IH last fuel
                {| unread := unlines ls ++ last; eofbit := false;
                   failbit := false |}
                out word' (newTab ++ out ++ endl))
      as (outs & Hrec & Hall); auto.
    + rewrite Hu in Hfuel. cbn [unread]. revert Hfuel. unfold endl. len.
    + exists (out :: outs). rewrite Hrec. cbn [unlines app].
      rewrite !append_assoc. split; [reflexivity|].
      constructor; [split; assumption | assumption].
Qed.

(** X11: for keys whose indices are table positions [transposeTab] never
    throws and never runs out of steps, whatever the text: every [replace]
    is within its line.  The text splits into lines ended by a newline and
    a last line that is not; the result has one line for each of them (the
    last one only if it is not empty), each ended by a newline and holding
    no other newline, and every line that [isChordLine] rejects is copied
    unchanged. *)
Theorem transposeTab_lines_kept (tab : string) (k1 k2 : Key) :
  Key_wf k1 -> Key_wf k2 ->
  exists ls last outs,
    tab = unlines ls ++ last /\
    Forall (fun l => no_newline l = true) ls /\ no_newline last = true /\
    transposeTab tab k1 k2 = Ret (unlines outs) /\
    Forall2 (fun l out => (isChordLine l = Ret false -> out = l) /\
                          no_newline out = true)
      (ls ++ match last with EmptyString => [] | _ => [last] end) outs.
Proof.
  intros W1 W2. destruct (lines_shape tab) as (ls & last & -> & Hls & Hlast).
  destruct (transposeTab_lines_total k1 k2 W1 W2 ls last
              (S (String.length (unlines ls ++ last)))
              (stringstream (unlines ls ++ last)) "" "" "")
    as (outs & Hrun & Hall); auto.
  exists ls, last, outs. repeat split; assumption.
Qed.

Lemma transposeTab_lines_kept_witness :
  exists out, transposeTab ("Intro:" ++ endl ++ "C  G7")
                (mkKey "a" 1 false) (mkKey "c" 4 false) = Ret out.
Proof.
  destruct (transposeTab_lines_kept ("Intro:" ++ endl ++ "C  G7")
              (mkKey "a" 1 false) (mkKey "c" 4 false))
    as (ls & last & outs & _ & _ & _ & H & _); [unfold Key_wf; cbn; lia ..|].
  exists (unlines outs). exact H.
Defined.

(** ** The words a stream still holds *)

Lemma length_skipws (s : string) :
  (String.length (skipws s) <= String.length s)%nat.
Proof.
  induction s as [|c s IH]; cbn [skipws]; [lia|].
  destruct (isspace c); cbn [String.length]; lia.
Qed.

Lemma read_word_length (c : ascii) (s : string) :
  isspace c = false ->
  (String.length (snd (read_word (String c s))) < String.length (String c s))%nat.
Proof.
  intros Hc. pose proof (read_word_spec (String c s)) as (_ & _ & Hs).
  destruct (read_word (String c s)) as [w r] eqn:E. cbn [fst snd] in *.
  assert (Hne : w <> "").
  { intros ->. cbn [read_word] in E. rewrite Hc in E.
    destruct (read_word s). discriminate. }
  rewrite Hs. destruct w; [congruence|]. len.
Qed.

Lemma tokens_fuel_stable (n : nat) :
  forall m s, (String.length s <= n)%nat -> (String.length s <= m)%nat ->
              tokens_fuel n s = tokens_fuel m s.
Proof.
  induction n as [|n IH]; intros m s Hn Hm.
  - assert (s = "") as -> by (apply length_zero_empty; lia). now destruct m.
  - destruct m as [|m].
    + now assert (s = "") as -> by (apply length_zero_empty; lia).
    + cbn [tokens_fuel]. destruct (skipws s) as [|c s'] eqn:E; [reflexivity|].
      pose proof (read_word_length c s' (skipws_head _ _ _ E)) as Hr.
      pose proof (length_skipws s) as Hs. rewrite E in Hs.
      destruct (read_word (String c s')) as [w r]. cbn [snd] in Hr.
      f_equal. apply IH; lia.
Qed.

Lemma tokens_nil (s : string) : all_space s = true -> tokens s = [].
Proof.
  intros H. unfold tokens. destruct (String.length s); [reflexivity|].
  cbn [tokens_fuel]. now rewrite skipws_only_space.
Qed.

Lemma tokens_cons (ws w r : string) :
  all_space ws = true -> no_space w = true -> w <> "" ->
  word_end r = true ->
  tokens (ws ++ w ++ r) = w :: tokens r.
Proof.
  intros Hws Hw Hne Hr. unfold tokens.
  destruct (String.length (ws ++ w ++ r)) as [|n] eqn:En.
  { exfalso. destruct w; [congruence|]. revert En. len. }
  cbn [tokens_fuel]. rewrite skipws_all_space, skipws_word by assumption.
  destruct (w ++ r) as [|c s] eqn:E.
  { destruct w; [congruence | discriminate E]. }
  rewrite <- E, read_word_word by assumption. f_equal.
  apply tokens_fuel_stable; [|lia].
  apply (f_equal String.length) in E.
  destruct w; [congruence|]. revert En E. len.
Qed.

(** An extraction fails when no word is pending and delivers the first
    pending word otherwise. *)
Lemma extract_pending (st : istream) (word : string) :
  (pending st = [] /\
   failbit (fst (extract st word)) = true /\
   snd (extract st word) = word /\
   pending (fst (extract st word)) = []) \/
  (exists w ts st',
     pending st = w :: ts /\ extract st word = (st', w) /\
     failbit st' = false /\ pending st' = ts).
Proof.
  destruct (extract_cases st word)
    as [(Hfail & Hw & Hwhy) | (Hg & ws & w & r & Hu & Hws & Hw & Hne & Hr
                               & Hex)].
  - left. repeat split; try assumption.
    + unfold pending. destruct (good st); [|reflexivity].
      destruct Hwhy as [Hwhy|Hwhy]; [discriminate | now apply tokens_nil].
    + unfold pending, good. rewrite Hfail.
      now rewrite andb_false_r.
  - right. exists w, (tokens r). eexists. split; [|split; [exact Hex|]].
    + unfold pending. rewrite Hg, Hu. now apply tokens_cons.
    + split; [reflexivity|]. unfold pending, good. cbn.
      destruct r; [reflexivity | reflexivity].
Qed.

Lemma validNote_formatNote_idem (w : string) :
  validNote (formatNote w) = validNote w.
Proof.
  apply lookups_by_normal_form.
  apply formatNote_fixed; [apply formatNote_no_space | apply formatNote_lower].
Qed.

Lemma formatNote_formatNote (w : string) :
  formatNote (formatNote w) = formatNote w.
Proof.
  apply formatNote_fixed; [apply formatNote_no_space | apply formatNote_lower].
Qed.

(** ** Asking for a key *)

(** The loop prompts once for every word it reads, up to the first word
    that is a valid note. *)
Lemma userIOKeys_loop_found (junk : list string) :
  forall (fuel : nat) (cin : istream) (cout resp k : string)
         (ts : list string),
    pending cin = (junk ++ k :: ts)%list ->
    Forall (fun w => validNote w = false) junk -> validNote k = true ->
    (List.length junk < fuel)%nat ->
    exists cin',
      userIOKeys_loop fuel cin cout resp
        = Ret (cin', cout ++ prompts (S (List.length junk)), formatNote k) /\
      pending cin' = ts.
Proof.
  induction junk as [|j junk IH]; intros fuel cin cout resp k ts Hp Hj Hk Hf;
    (destruct fuel as [|fuel]; [cbn in Hf; lia|]); cbn [userIOKeys_loop];
    destruct (extract_pending cin resp)
      as [(Hnil & _) | (w & ts' & cin' & Hcons & Hex & _ & Hp')];
    try (rewrite Hp in Hnil; discriminate Hnil);
    rewrite Hp in Hcons; cbn [app] in Hcons; injection Hcons as <- <-;
    rewrite Hex.
  - rewrite validNote_formatNote_idem, Hk. exists cin'.
    cbn [prompts List.length]. rewrite append_empty_r. auto.
  - apply Forall_cons_iff in Hj. destruct Hj as [Hj1 Hj2].
    rewrite validNote_formatNote_idem, Hj1.
    destruct (IH fuel cin' (cout ++ prompt) (formatNote j) k ts)
      as (cin'' & Hrun & Hp''); auto.
    { cbn in Hf. lia. }
    exists cin''. rewrite Hrun. split; [|assumption].
    cbn [prompts List.length]. now rewrite !append_assoc.
Qed.

(** At the end of the input the extraction fails and [response] keeps its
    value: the loop returns at once when that value is a valid note. *)
Lemma userIOKeys_loop_stale (fuel : nat) (cin : istream) (cout resp : string) :
  pending cin = [] -> validNote resp = true ->
  exists cin',
    userIOKeys_loop (S fuel) cin cout resp
      = Ret (cin', cout ++ prompt, formatNote resp) /\
    pending cin' = [].
Proof.
  intros Hp Hv. cbn [userIOKeys_loop].
  destruct (extract_pending cin resp)
    as [(_ & _ & Hw & Hp') | (w & ts & cin' & Hcons & _)];
    [|rewrite Hp in Hcons; discriminate Hcons].
  destruct (extract cin resp) as [cin' resp']. cbn [fst snd] in *. subst.
  rewrite validNote_formatNote_idem, Hv. eauto.
Qed.

(** Otherwise it never returns: no budget is enough. *)
Lemma userIOKeys_loop_diverges (fuel : nat) :
  forall (junk : list string) (cin : istream) (cout resp : string),
    pending cin = junk ->
    Forall (fun w => validNote w = false) junk ->
    (junk = [] -> validNote resp = false) ->
    userIOKeys_loop fuel cin cout resp = Raise step_limit.
Proof.
  induction fuel as [|fuel IH]; intros junk cin cout resp Hp Hj Hr;
    [reflexivity|].
  cbn [userIOKeys_loop].
  destruct (extract_pending cin resp)
    as [(Hnil & _ & Hw & Hp') | (w & ts & cin' & Hcons & Hex & _ & Hp')].
  - destruct (extract cin resp) as [cin' resp']. cbn [fst snd] in *. subst.
    rewrite validNote_formatNote_idem, Hr by congruence.
    apply (IH []); auto.
    intros _. rewrite validNote_formatNote_idem. apply Hr. congruence.
  - rewrite Hex. rewrite <- Hp, Hcons in Hj.
    apply Forall_cons_iff in Hj. destruct Hj as [Hj1 Hj2].
    rewrite validNote_formatNote_idem, Hj1.
    apply (IH ts); auto.
    intros _. now rewrite validNote_formatNote_idem.
Qed.

(** A budget that the invalid words use up is not enough either. *)
Lemma userIOKeys_loop_short (fuel : nat) :
  forall (junk rest : list string) (cin : istream) (cout resp : string),
    pending cin = (junk ++ rest)%list ->
    Forall (fun w => validNote w = false) junk ->
    (fuel <= List.length junk)%nat ->
    userIOKeys_loop fuel cin cout resp = Raise step_limit.
Proof.
  induction fuel as [|fuel IH]; intros junk rest cin cout resp Hp Hj Hf;
    [reflexivity|].
  destruct junk as [|j junk]; [cbn in Hf; lia|].
  cbn [userIOKeys_loop].
  destruct (extract_pending cin resp)
    as [(Hnil & _) | (w & ts & cin' & Hcons & Hex & _ & Hp')];
    [rewrite Hp in Hnil; discriminate Hnil|].
  rewrite Hp in Hcons. cbn [app] in Hcons. injection Hcons as <- <-.
  rewrite Hex. apply Forall_cons_iff in Hj. destruct Hj as [Hj1 Hj2].
  rewrite validNote_formatNote_idem, Hj1.
  apply (IH junk rest); auto. cbn in Hf. lia.
Qed.

(** X12: [userIOKeys] prompts once for every word it reads and takes as old
    key the first word that is a valid note, and as new key the first valid
    note among the words after it; the keys are built from the normalised
    words and their indices are table positions. *)
Theorem userIOKeys_first_valid_words (cin : istream) (cout : string)
    (junk1 junk2 ts : list string) (k1 k2 : string) (fuel : nat) :
  pending cin = (junk1 ++ k1 :: junk2 ++ k2 :: ts)%list ->
  Forall (fun w => validNote w = false) junk1 ->
  Forall (fun w => validNote w = false) junk2 ->
  validNote k1 = true -> validNote k2 = true ->
  (List.length junk1 < fuel)%nat -> (List.length junk2 < fuel)%nat ->
  exists cin' oldKey newKey,
    userIOKeys fuel cin cout
      = Ret (cin',
             cout ++ welcome ++ prompts (S (List.length junk1)) ++
             ask_new ++ prompts (S (List.length junk2)),
             oldKey, newKey) /\
    Key_of (formatNote k1) = Ret oldKey /\
    Key_of (formatNote k2) = Ret newKey /\
    Key_wf oldKey /\ Key_wf newKey /\
    pending cin' = ts.
Proof.
  intros Hp Hj1 Hj2 Hk1 Hk2 Hf1 Hf2. unfold userIOKeys.
  destruct (userIOKeys_loop_found junk1 fuel cin (cout ++ welcome) "" k1
              (junk2 ++ k2 :: ts)%list Hp Hj1 Hk1 Hf1) as (cin1 & -> & Hp1).
  cbn [bind].
  destruct (Key_of_total (formatNote k1)) as (oldKey & HoldKey & Hwf1 & _).
  rewrite HoldKey. cbn [bind].
  destruct (userIOKeys_loop_found junk2 fuel cin1
              (((cout ++ welcome) ++ prompts (S (List.length junk1)))
               ++ ask_new) (formatNote k1) k2 ts Hp1 Hj2 Hk2 Hf2)
    as (cin2 & -> & Hp2).
  cbn [bind].
  destruct (Key_of_total (formatNote k2)) as (newKey & HnewKey & Hwf2 & _).
  rewrite HnewKey. cbn [bind].
  exists cin2, oldKey, newKey. rewrite !append_assoc. auto 10.
Qed.

Lemma userIOKeys_first_valid_words_witness :
  exists cin' oldKey newKey cout,
    userIOKeys 3 (stringstream "x A# to Gb") "" = Ret (cin', cout, oldKey, newKey)
    /\ Key_of "a#" = Ret oldKey /\ Key_of "gb" = Ret newKey.
Proof.
  destruct (userIOKeys_first_valid_words (stringstream "x A# to Gb") ""
              ["x"] ["to"] [] "A#" "Gb" 3)
    as (cin' & oldKey & newKey & H & H1 & H2 & _);
    try reflexivity; try (cbn; lia);
    try (repeat constructor; reflexivity).
  exists cin', oldKey, newKey. eexists. split; [exact H|]. auto.
Defined.

(** X13: [userIOKeys] at the end of the input.  When the input holds no
    valid note, or holds one and then only words that are not, it never
    returns: no budget is enough.  When the input ends right after the
    first valid note, the failed extraction leaves [response] as it was and
    the new key is the old key. *)
Theorem userIOKeys_end_of_input (cin : istream) (cout : string)
    (junk junk2 : list string) (k1 : string) (fuel : nat) :
  Forall (fun w => validNote w = false) junk ->
  (pending cin = junk -> userIOKeys fuel cin cout = Raise step_limit) /\
  (junk2 <> [] -> Forall (fun w => validNote w = false) junk2 ->
   validNote k1 = true -> pending cin = (junk ++ k1 :: junk2)%list ->
   userIOKeys fuel cin cout = Raise step_limit) /\
  (validNote k1 = true -> pending cin = (junk ++ [k1])%list ->
   (List.length junk < fuel)%nat ->
   exists cin' key,
     userIOKeys fuel cin cout
       = Ret (cin',
              cout ++ welcome ++ prompts (S (List.length junk)) ++
              ask_new ++ prompt,
              key, key) /\
     Key_of (formatNote k1) = Ret key).
Proof.
  intros Hj. split; [|split].
  - intros Hp. unfold userIOKeys.
    rewrite (userIOKeys_loop_diverges fuel junk); auto.
  - intros Hne Hj2 Hk1 Hp. unfold userIOKeys.
    destruct (Nat.le_gt_cases fuel (List.length junk)) as [Hshort|Hlong].
    + rewrite (userIOKeys_loop_short fuel junk (k1 :: junk2)); auto.
    + destruct (userIOKeys_loop_found junk fuel cin (cout ++ welcome) "" k1
                  junk2 Hp Hj Hk1 Hlong) as (cin1 & -> & Hp1).
      cbn [bind].
      destruct (Key_of_total (formatNote k1)) as (oldKey & -> & _).
      cbn [bind].
      rewrite (userIOKeys_loop_diverges fuel junk2); auto.
      intros ->. congruence.
  - intros Hk1 Hp Hf. unfold userIOKeys.
    destruct (userIOKeys_loop_found junk fuel cin (cout ++ welcome) "" k1
                [] Hp Hj Hk1 Hf) as (cin1 & -> & Hp1).
    cbn [bind].
    destruct (Key_of_total (formatNote k1)) as (key & Hkey & _).
    rewrite Hkey. cbn [bind].
    destruct fuel as [|fuel]; [lia|].
    destruct (userIOKeys_loop_stale fuel cin1
                (((cout ++ welcome) ++ prompts (S (List.length junk)))
                 ++ ask_new) (formatNote k1) Hp1)
      as (cin2 & -> & _).
    { now rewrite validNote_formatNote_idem. }
    cbn [bind]. rewrite formatNote_formatNote, Hkey. cbn [bind].
    exists cin2, key. rewrite !append_assoc. auto.
Qed.

Lemma userIOKeys_end_of_input_witness :
  userIOKeys 100 (stringstream "H  moll") "" = Raise step_limit /\
  exists cin' cout key,
    userIOKeys 2 (stringstream "key: Eb ") "" = Ret (cin', cout, key, key).
Proof.
  destruct (userIOKeys_end_of_input (stringstream "H  moll") ""
              ["H"; "moll"] [] "" 100) as (H1 & _).
  { repeat constructor. }
  destruct (userIOKeys_end_of_input (stringstream "key: Eb ") ""
              ["key:"] [] "Eb" 2) as (_ & _ & H2).
  { repeat constructor. }
  split; [apply H1; reflexivity|].
  destruct H2 as (cin' & key & H & _); [reflexivity | reflexivity | cbn; lia|].
  exists cin'. eexists. exists key. exact H.
Defined.

(** ** Reading the tab *)

Lemma before_end_Forall (P : string -> Prop) (ls : list string) :
  Forall P ls -> Forall P (before_end ls).
Proof.
  induction 1 as [|l ls Hl Hls IH]; cbn [before_end]; [constructor|].
  destruct (String.eqb l "end"); constructor; assumption.
Qed.

(** The loop keeps the lines it reads, up to the first line that is exactly
    "end" or to the end of the input. *)
Lemma userIOTab_loop_reads :
  forall (ls : list string) (last : string) (fuel : nat) (cin : istream)
         (resp tab : string),
    good cin = true -> unread cin = unlines ls ++ last ->
    Forall (fun l => no_newline l = true) ls -> no_newline last = true ->
    (String.length (unread cin) < fuel)%nat ->
    exists cin',
      userIOTab_loop fuel cin resp tab
        = Ret (cin',
               tab ++ unlines (before_end
                 (ls ++ match last with EmptyString => [] | _ => [last] end))).
Proof.
  induction ls as [|l ls IH];
    intros last fuel cin resp tab Hg Hu Hls Hlast Hfuel.
  - cbn [unlines append] in Hu. destruct fuel as [|fuel]; [lia|].
    cbn [userIOTab_loop app]. destruct last as [|c last].
    + unfold getline. rewrite Hg, Hu. cbn [failbit before_end unlines].
      rewrite append_empty_r. eauto.
    + rewrite (getline_last cin resp (String c last)); auto; [|discriminate].
      cbn [failbit before_end].
      destruct (String.eqb (String c last) "end").
      * cbn [unlines]. rewrite append_empty_r. eauto.
      * destruct fuel as [|fuel]; [rewrite Hu in Hfuel; cbn in Hfuel; lia|].
        cbn [userIOTab_loop getline good eofbit failbit negb andb unlines].
        rewrite append_empty_r. eauto.
  - cbn [unlines] in Hu. rewrite !append_assoc in Hu.
    destruct fuel as [|fuel]; [lia|]. cbn [userIOTab_loop app before_end].
    apply Forall_cons_iff in Hls. destruct Hls as [Hl Hls].
    rewrite (getline_line cin resp l (unlines ls ++ last)) by assumption.
    cbn [failbit]. destruct (String.eqb l "end").
    + cbn [unlines]. rewrite append_empty_r. eauto.
    + destruct (IH last fuel
                  {| unread := unlines ls ++ last; eofbit := false;
                     failbit := false |} l (tab ++ l ++ endl))
        as (cin' & Hrun); auto.
      * rewrite Hu in Hfuel. cbn [unread]. revert Hfuel. unfold endl. len.
      * exists cin'. rewrite Hrun. cbn [unlines]. now rewrite !append_assoc.
Qed.

Lemma transposeTab_unlines (ls : list string) (k1 k2 : Key) :
  Key_wf k1 -> Key_wf k2 -> Forall (fun l => no_newline l = true) ls ->
  exists outs,
    transposeTab (unlines ls) k1 k2 = Ret (unlines outs) /\
    Forall2 (fun l out => (isChordLine l = Ret false -> out = l) /\
                          no_newline out = true) ls outs.
Proof.
  intros W1 W2 Hls.
  destruct (transposeTab_lines_total k1 k2 W1 W2 ls ""
              (S (String.length (unlines ls)))
              (stringstream (unlines ls)) "" "" "")
    as (outs & Hrun & Hall); auto.
  - cbn [unread stringstream]. now rewrite append_empty_r.
  - exists outs. rewrite app_nil_r in Hall. auto.
Qed.

(** X14: [userIOTab] keeps the lines it reads up to the first line that is
    exactly "end", or to the end of the input, and prints, after its two
    fixed texts, one line for each of them: for keys whose indices are
    table positions it never fails, and the lines that [isChordLine]
    rejects are printed as they were read. *)
Theorem userIOTab_lines (cin : istream) (cout : string) (k1 k2 : Key)
    (ls : list string) (last : string) :
  Key_wf k1 -> Key_wf k2 ->
  good cin = true -> unread cin = unlines ls ++ last ->
  Forall (fun l => no_newline l = true) ls -> no_newline last = true ->
  exists cin' outs,
    userIOTab cin cout k1 k2
      = Ret (cin',
             cout ++ paste ++ endl ++ banner ++ unlines outs ++ endl) /\
    Forall2 (fun l out => (isChordLine l = Ret false -> out = l) /\
                          no_newline out = true)
      (before_end
         (ls ++ match last with EmptyString => [] | _ => [last] end))
      outs.
Proof.
  intros W1 W2 Hg Hu Hls Hlast. unfold userIOTab.
  destruct (userIOTab_loop_reads ls last (S (String.length (unread cin)))
              cin "" "" Hg Hu Hls Hlast) as (cin' & ->); [lia|].
  cbn [bind append].
  destruct (transposeTab_unlines
              (before_end
                 (ls ++ match last with EmptyString => [] | _ => [last] end))
              k1 k2 W1 W2) as (outs & -> & Hall).
  { apply before_end_Forall. apply Forall_app. split; [assumption|].
    destruct last; constructor; [assumption | constructor]. }
  cbn [bind]. exists cin', outs. rewrite !append_assoc. auto.
Qed.

Lemma userIOTab_lines_witness :
  exists cin' outs,
    userIOTab (stringstream ("Verse" ++ endl ++ "end" ++ endl ++ "C G")) ""
      (mkKey "a" 1 false) (mkKey "c" 4 false)
    = Ret (cin', paste ++ endl ++ banner ++ unlines outs ++ endl) /\
    Forall2 (fun l out => (isChordLine l = Ret false -> out = l) /\
                          no_newline out = true) ["Verse"] outs.
Proof.
  destruct (userIOTab_lines
              (stringstream ("Verse" ++ endl ++ "end" ++ endl ++ "C G")) ""
              (mkKey "a" 1 false) (mkKey "c" 4 false)
              ["Verse"; "end"] "C G")
    as (cin' & outs & H & Hall);
    try reflexivity; try (unfold Key_wf; cbn; lia);
    try (repeat constructor).
  exists cin', outs. split; [exact H | exact Hall].
Defined.

(** ** A whole session *)

Lemma validNote_not_empty (k : string) : validNote k = true -> k <> "".
Proof. intros H ->. discriminate H. Qed.

(** A valid note at the first try: one prompt, one word read. *)
Lemma userIOKeys_loop_first_try (fuel : nat) (cin : istream)
    (cout resp ws k rest : string) :
  good cin = true -> unread cin = ws ++ k ++ rest ->
  all_space ws = true -> no_space k = true -> validNote k = true ->
  word_end rest = true ->
  userIOKeys_loop (S fuel) cin cout resp
    = Ret ({| unread := rest;
              eofbit := match rest with EmptyString => true | _ => false end;
              failbit := false |},
           cout ++ prompt, formatNote k).
Proof.
  intros Hg Hu Hws Hk Hv Hrest. cbn [userIOKeys_loop].
  rewrite (extract_word cin resp ws k rest)
    by auto using validNote_not_empty.
  now rewrite validNote_formatNote_idem, Hv.
Qed.

Lemma unlines_empty (ls : list string) (last : string) :
  unlines ls ++ last = "" -> ls = [] /\ last = "".
Proof.
  destruct ls as [|l ls]; cbn [unlines append]; [auto|].
  intros H. apply (f_equal String.length) in H. revert H. unfold endl. len.
Qed.

(** X15: a session in which both keys are valid notes at the first try.
    [main] prints the welcome text and a prompt, the second question and a
    prompt, the two fixed texts of [userIOTab], and then the transposition,
    between the keys built from the two normalised words, of the text that
    follows the second key up to the first line that is exactly "end" - the
    rest of the line on which the key was typed being its first line - and
    a final newline.  It never fails. *)
Theorem main_session (ws1 k1 ws2 k2 : string) (ls : list string)
    (last : string) (fuel : nat) :
  all_space ws1 = true -> no_space k1 = true -> validNote k1 = true ->
  all_space ws2 = true -> ws2 <> "" ->
  no_space k2 = true -> validNote k2 = true ->
  Forall (fun l => no_newline l = true) ls -> no_newline last = true ->
  word_end (unlines ls ++ last) = true ->
  exists oldKey newKey newTab,
    Key_of (formatNote k1) = Ret oldKey /\
    Key_of (formatNote k2) = Ret newKey /\
    transposeTab
      (unlines (before_end
         (ls ++ match last with EmptyString => [] | _ => [last] end)))
      oldKey newKey = Ret newTab /\
    main (S fuel) (ws1 ++ k1 ++ ws2 ++ k2 ++ unlines ls ++ last)
      = Ret (welcome ++ prompt ++ ask_new ++ prompt ++ paste ++ endl ++
             banner ++ newTab ++ endl).
Proof.
  intros Hws1 Hk1 Hv1 Hws2 Hne2 Hk2 Hv2 Hls Hlast Hend.
  destruct (Key_of_total (formatNote k1)) as (oldKey & HoldKey & W1 & _).
  destruct (Key_of_total (formatNote k2)) as (newKey & HnewKey & W2 & _).
  set (kept := before_end
         (ls ++ match last with EmptyString => [] | _ => [last] end)).
  destruct (transposeTab_unlines kept oldKey newKey W1 W2)
    as (outs & Htab & _).
  { apply before_end_Forall. apply Forall_app. split; [assumption|].
    destruct last; constructor; [assumption | constructor]. }
  exists oldKey, newKey, (unlines outs).
  split; [exact HoldKey|]. split; [exact HnewKey|]. split; [exact Htab|].
  unfold main, userIOKeys.
  rewrite (userIOKeys_loop_first_try fuel (stringstream _) _ "" ws1 k1
             (ws2 ++ k2 ++ unlines ls ++ last)); auto.
  2:{ destruct ws2 as [|c ws2]; [congruence|]. cbn in *.
      apply andb_true_iff in Hws2. tauto. }
  cbn [bind]. rewrite HoldKey. cbn [bind].
  rewrite (userIOKeys_loop_first_try fuel _ _ (formatNote k1) ws2 k2
             (unlines ls ++ last)); auto.
  2:{ destruct ws2 as [|c ws2]; [congruence | reflexivity]. }
  cbn [bind]. rewrite HnewKey. cbn [bind]. unfold userIOTab.
  destruct (unlines ls ++ last) as [|c rest] eqn:Erest.
  - (* nothing follows the second key: [cin] is at its end *)
    apply unlines_empty in Erest. destruct Erest as [-> ->].
    cbn [unread String.length userIOTab_loop getline good eofbit failbit
         negb andb bind].
    unfold kept in Htab. cbn [app before_end unlines] in Htab.
    rewrite Htab. cbn [bind snd]. now rewrite !append_assoc.
  - rewrite <- Erest.
    destruct (userIOTab_loop_reads ls last
                (S (String.length (unlines ls ++ last)))
                {| unread := unlines ls ++ last; eofbit := false;
                   failbit := false |} "" "") as (cin' & Hrun); auto.
    cbn [unread]. rewrite Hrun. cbn [bind append]. fold kept.
    rewrite Htab. cbn [bind snd]. now rewrite !append_assoc.
Qed.

Lemma main_session_witness :
  exists out,
    main 1 ("a" ++ endl ++ "c" ++ endl ++ "Am  G" ++ endl ++ "end" ++ endl)
    = Ret out.
Proof.
  destruct (main_session "" "a" endl "c" [""; "Am  G"; "end"] "" 0)
    as (oldKey & newKey & newTab & _ & _ & _ & H);
    try reflexivity; try discriminate; try (repeat constructor).
  eexists. exact H.
Defined.

(** ** What a chord starts with *)

Lemma no_space_append (s t : string) :
  no_space (s ++ t) = no_space s && no_space t.
Proof.
  induction s as [|c s IH]; cbn [append no_space]; [reflexivity|].
  now rewrite IH, andb_assoc.
Qed.

Lemma no_space_take (n : nat) (s : string) :
  no_space s = true -> no_space (take n s) = true.
Proof.
  revert s. induction n as [|n IH]; intros [|c s]; cbn [take no_space]; auto.
  intros H. apply andb_true_iff in H. destruct H as [Hc Hs].
  now rewrite Hc, IH.
Qed.

Lemma formatNote_word (w : string) :
  no_space w = true -> w <> "" -> formatNote w = transform tolower w.
Proof.
  intros Hw Hne. rewrite formatNote_read_word.
  rewrite <- (append_empty_r w) at 1.
  rewrite skipws_word, read_word_word by (assumption || reflexivity).
  reflexivity.
Qed.

Lemma validNote_note_letter (r : string) :
  no_space r = true -> validNote r = true ->
  exists c rest, r = String c rest /\ note_letter c = true.
Proof.
  intros Hr Hv. destruct r as [|c rest]; [discriminate Hv|].
  exists c, rest. split; [reflexivity|].
  apply validNote_spec in Hv.
  rewrite formatNote_word in Hv by (assumption || discriminate).
  cbn [transform] in Hv. unfold note_letter, notes, altNotes in *.
  cbn [In] in Hv.
  destruct Hv as [Hv|Hv];
    repeat (destruct Hv as [Hv|Hv];
            [injection Hv as Hc _; rewrite <- Hc; reflexivity|]);
    contradiction.
Qed.

Lemma validChord_note_letter (n : nat) :
  forall w, (String.length w < n)%nat ->
    no_space w = true -> validChord w = Ret true ->
    exists c rest, w = String c rest /\ note_letter c = true.
Proof.
  induction n as [|n IH]; intros w Hlen Hw Hv; [lia|].
  rewrite validChord_eq in Hv. unfold validChord_with in Hv.
  destruct (size w =? 1).
  { destruct (validNote w) eqn:E; [|discriminate Hv].
    now apply validNote_note_letter. }
  destruct (validSlashChord w) as [[] | e] eqn:Hvs; cbn [bind] in Hv;
    [| |discriminate Hv].
  - apply validSlashChord_split in Hvs.
    destruct Hvs as (pre & post & -> & _ & _ & _ & Hpre & _).
    rewrite no_space_append in Hw. apply andb_true_iff in Hw.
    destruct Hw as [Hw _].
    destruct (IH pre) as (c & rest & -> & Hc); auto.
    { revert Hlen. len. }
    exists c, (rest ++ "/" ++ post). auto.
  - destruct (getRoot_take w) as (m & _ & Hroot). rewrite Hroot in Hv.
    cbn [bind] in Hv.
    destruct (validNote (take m w)) eqn:E; [|discriminate Hv].
    destruct (validNote_note_letter (take m w)) as (c & rest & Ht & Hc);
      auto using no_space_take.
    exists c, (rest ++ drop m w). split; [|assumption].
    rewrite <- (take_drop m w) at 1. now rewrite Ht.
Qed.

(** X16: [validChord] never accepts a word that does not begin with one of
    the letters A to G, in either case: in particular not the empty word.
    (The words that [transposeTab] and [isChordLine] test come from a
    stream and hold no white space.) *)
Theorem validChord_starts_with_note_letter (w : string) :
  no_space w = true -> validChord w = Ret true ->
  exists c rest, w = String c rest /\ note_letter c = true.
Proof.
  intros Hw Hv. apply (validChord_note_letter (S (String.length w))); auto.
Qed.

Lemma validChord_starts_with_note_letter_witness :
  exists c rest, "F#m7b5" = String c rest /\ note_letter c = true.
Proof.
  apply (validChord_starts_with_note_letter "F#m7b5"); reflexivity.
Defined.

(** ** A text without chord lines *)

Lemma transposeTab_lines_plain (k1 k2 : Key) :
  forall (ls : list string) (last : string) (fuel : nat) (st : istream)
         (line word newTab : string),
    good st = true -> unread st = unlines ls ++ last ->
    Forall (fun l => no_newline l = true) ls -> no_newline last = true ->
    Forall (fun l => isChordLine l = Ret false)
      (ls ++ match last with EmptyString => [] | _ => [last] end) ->
    (String.length (unread st) < fuel)%nat ->
    transposeTab_lines fuel st line word newTab k1 k2
      = Ret (newTab ++
             unlines
               (ls ++ match last with EmptyString => [] | _ => [last] end)).
Proof.
  induction ls as [|l ls IH];
    intros last fuel st line word newTab Hg Hu Hls Hlast Hall Hfuel.
  - cbn [unlines append] in Hu. destruct fuel as [|fuel]; [lia|].
    cbn [transposeTab_lines]. destruct last as [|c last].
    + unfold getline. rewrite Hg, Hu. cbn [failbit app unlines].
      now rewrite append_empty_r.
    + rewrite (getline_last st line (String c last)); auto; [|discriminate].
      cbn [failbit]. cbn [app] in Hall.
      apply Forall_cons_iff in Hall. destruct Hall as [Hcl _].
      rewrite Hcl. cbn [bind].
      destruct fuel as [|fuel]; [rewrite Hu in Hfuel; cbn in Hfuel; lia|].
      cbn [transposeTab_lines getline good eofbit failbit negb andb].
      cbn [unlines app]. now rewrite append_empty_r.
  - cbn [unlines] in Hu. rewrite !append_assoc in Hu.
    destruct fuel as [|fuel]; [lia|]. cbn [transposeTab_lines].
    apply Forall_cons_iff in Hls. destruct Hls as [Hl Hls].
    cbn [app] in Hall.
    apply Forall_cons_iff in Hall. destruct Hall as [Hcl Hall].
    rewrite (getline_line st line l (unlines ls ++ last)) by assumption.
    cbn [failbit]. rewrite Hcl. cbn [bind].
    rewrite (IH last fuel
               {| unread := unlines ls ++ last; eofbit := false;
                  failbit := false |}
               l word (newTab ++ l ++ endl)); auto.
    + cbn [unlines app]. now rewrite !append_assoc.
    + rewrite Hu in Hfuel. cbn [unread]. revert Hfuel. unfold endl. len.
Qed.

(** X17: a text in which [isChordLine] rejects every line comes back from
    [transposeTab] as it is, whatever the keys, with a newline added after
    the last line when it had none. *)
Theorem transposeTab_no_chord_line (ls : list string) (last : string)
    (k1 k2 : Key) :
  Forall (fun l => no_newline l = true) ls -> no_newline last = true ->
  Forall (fun l => isChordLine l = Ret false)
    (ls ++ match last with EmptyString => [] | _ => [last] end) ->
  transposeTab (unlines ls ++ last) k1 k2
    = Ret (unlines
             (ls ++ match last with EmptyString => [] | _ => [last] end)).
Proof.
  intros Hls Hlast Hall. unfold transposeTab.
  rewrite (transposeTab_lines_plain k1 k2 ls last); auto.
Qed.

Lemma transposeTab_no_chord_line_witness :
  transposeTab ("Intro:" ++ endl ++ "la la la")
    (mkKey "a" 1 false) (mkKey "c" 4 false)
  = Ret ("Intro:" ++ endl ++ "la la la" ++ endl).
Proof.
  apply (transposeTab_no_chord_line ["Intro:"] "la la la");
    try reflexivity; repeat constructor.
Defined.
